(** * LocalLindbladian: the connection enumerator of the Lindblad superoperator

    A shallow embedding of [Sources/Operator/local_lindbladian.cc].

    - Callbacks are state transformers that may fail; an enumeration is the
      left-to-right composition of the callback invocations it makes.
    - [double] and [std::complex<double>] are kept abstract ([ScalarOps]):
      every theorem about the enumeration holds for any implementation of the
      arithmetic, in particular the IEEE one.
    - [int] site indices are integers [Z], and [+ N] is the sum of the
      integers: [std::plus<int>] computes that sum as long as it is a value
      of an [int] (signed overflow is undefined in the source language, and
      a doubled configuration of [2N] sites is indexed by [int]
      throughout).
    - Vectors are lists; a read or write outside a vector is a failure
      ([OutOfRange]) of the model. *)

From Stdlib Require Import List ZArith QArith Qcanon Lia Permutation Ring
  ZArithRing Bool.
From Stdlib Require PrimFloat Uint63.
Import ListNotations.

Set Implicit Arguments.

(* ===================================================================== *)
(** ** Scalars *)

(** The arithmetic of [double] (type [R]) and [std::complex<double>]
    (type [C]) that the source file uses. *)
Class ScalarOps (R C : Type) : Type := {
  Rlit : Q -> R;           (* a floating literal such as [0.0] or [-0.5] *)
  Cmake : R -> R -> C;     (* [Complex(re, im)] *)
  Cmul : C -> C -> C;      (* [a * b] *)
  Copp : C -> C;           (* [-a] *)
  Cconj : C -> C;          (* [std::conj(a)] *)
  RCmul : R -> C -> C      (* [x * a] with [x] a double *)
}.

(* ===================================================================== *)
(** ** Connections *)

(** Modelled from the spec: the struct [ConnectorRef] (abstract_operator.hpp,
    outside the sources at hand): a matrix element, the sites that change
    and their new values.  The member names are those the source reads. *)
Record ConnectorRef (R C : Type) : Type := mkConn {
  mel : C;
  tochange : list Z;
  newconf : list R
}.

(** Modelled from the spec: the struct [ConnectorSuperopRef]
    (local_lindbladian.hpp, outside the sources at hand): one scalar and
    independent row-side and column-side changes.  The member names are
    those the source reads; their order is that of the braced initialisers
    of [ForEachConnSuperOp]. *)
Record ConnectorSuperopRef (R C : Type) : Type := mkSuperConn {
  sup_mel : C;
  tochange_row : list Z;
  newconf_row : list R;
  tochange_col : list Z;
  newconf_col : list R
}.

(* ===================================================================== *)
(** ** Failing computations *)

Inductive failure : Type :=
| OutOfRange            (* access outside a vector *)
| Thrown (code : nat)   (* an exception leaving a callback *).

Inductive outcome (A : Type) : Type :=
| Ok (a : A)
| Fail (e : failure).

Arguments Ok {A} a.
Arguments Fail {A} e.

Definition bind {A B : Type} (m : outcome A) (k : A -> outcome B) : outcome B :=
  match m with
  | Ok a => k a
  | Fail e => Fail e
  end.

Definition outcome_map {A B : Type} (f : A -> B) (m : outcome A) : outcome B :=
  bind m (fun a => Ok (f a)).

Declare Scope outcome_scope.
Delimit Scope outcome_scope with outcome.
Notation "x <- m ;; k" := (bind m (fun x => k))
  (at level 61, m at next level, right associativity) : outcome_scope.
Local Open Scope outcome_scope.

(** A callback consuming values of type [A] over a caller state [S]. *)
Definition Callback (A S : Type) : Type := A -> S -> outcome S.

(** A range-for loop / an enumeration: the callback is invoked on each
    element in order; a failure aborts the rest. *)
Fixpoint for_each {A S : Type} (f : Callback A S) (l : list A) (s : S) : outcome S :=
  match l with
  | [] => Ok s
  | a :: l' => s' <- f a s ;; for_each f l' s'
  end.

(** Element-wise fallible transformation of a list, left to right. *)
Fixpoint map_outcome {A B : Type} (f : A -> outcome B) (l : list A) : outcome (list B) :=
  match l with
  | [] => Ok []
  | a :: l' => b <- f a ;; bs <- map_outcome f l' ;; Ok (b :: bs)
  end.

(** The callback that records what it receives, in order. *)
Definition record_cb {A : Type} : Callback A (list A) :=
  fun a seen => Ok (seen ++ [a]).

(* ===================================================================== *)
(** ** Vectors *)

(** [v.head(n)] of Eigen: the first [n] coefficients; the block must lie
    inside the vector. *)
Definition head {A : Type} (n : nat) (v : list A) : outcome (list A) :=
  if (n <=? length v)%nat then Ok (firstn n v) else Fail OutOfRange.

(** [v.tail(n)] of Eigen: the last [n] coefficients. *)
Definition tail {A : Type} (n : nat) (v : list A) : outcome (list A) :=
  if (n <=? length v)%nat then Ok (skipn (length v - n) v) else Fail OutOfRange.

(** [std::copy(src.begin(), src.end(), dst.begin() + off)]: overwrites
    [length src] cells of [dst] from position [off]; the destination range
    must exist. *)
Definition copy_to {A : Type} (src : list A) (off : nat) (dst : list A) : outcome (list A) :=
  if (off + length src <=? length dst)%nat
  then Ok (firstn off dst ++ src ++ skipn (off + length src) dst)
  else Fail OutOfRange.

(** [std::transform(src.begin(), src.end(), dst.begin() + off, f)]. *)
Definition transform_to {A B : Type} (f : A -> B) (src : list A) (off : nat) (dst : list B)
  : outcome (list B) :=
  copy_to (map f src) off dst.

(* ===================================================================== *)
(** ** The local-operator collaborator *)

(** Modelled from the spec: the class [LocalOperator] (local_operator.hpp,
    outside the sources at hand).  The spec gives its contract: for a
    configuration it produces a finite sequence of connections, handed to a
    callback one by one ([op_conns] is that sequence); conjugation,
    transposition, addition, product and multiplication by a scalar are pure
    transforms returning a new operator; it lives on a Hilbert space of
    [hilbert_size] sites. *)
Class LocalOperatorOps (R C Op : Type) : Type := {
  hilbert_size : Op -> nat;
  op_conns : Op -> list R -> list (ConnectorRef R C);
  op_add : Op -> Op -> Op;         (* [a += b] *)
  op_mul : Op -> Op -> Op;         (* [a * b] *)
  op_scale : C -> Op -> Op;        (* [z * a] *)
  Conjugate : Op -> Op;
  Transpose : Op -> Op
}.

Section Lindbladian.

Context {R C Op : Type}.
Context {scalars : ScalarOps R C}.
Context {operators : LocalOperatorOps R C Op}.

Local Abbreviation Conn := (ConnectorRef R C).
Local Abbreviation SuperConn := (ConnectorSuperopRef R C).

(** Modelled from the spec: [LocalOperator::ForEachConn(v, callback)], the
    synchronous enumeration of the connections of [op] on [v]. *)
Definition LocalOperator_ForEachConn {S : Type} (op : Op) (v : list R)
  (callback : Callback Conn S) : S -> outcome S :=
  for_each callback (op_conns op v).

(* ===================================================================== *)
(** ** The object state *)

Record LocalLindbladian : Type := mkLindbladian {
  H_ : Op;
  jump_ops_ : list Op;
  Hnh_ : Op;
  Hnh_dag_ : Op;
  SizePhysical : nat    (* [GetHilbertDoubled().SizePhysical()] *)
}.

(** [(-0.5 * j) * L.Conjugate().Transpose() * L] with [j = (0.0, 1.0)]. *)
Definition dissipator_term (L : Op) : Op :=
  let j := Cmake (Rlit 0) (Rlit 1) in
  op_mul (op_scale (RCmul (Rlit (-1 # 2)) j) (Transpose (Conjugate L))) L.

(** [LocalLindbladian::Init]. *)
Definition Init (self : LocalLindbladian) : LocalLindbladian :=
  let Hnh := fold_left (fun acc L => op_add acc (dissipator_term L))
                       (jump_ops_ self) (H_ self) in
  mkLindbladian (H_ self) (jump_ops_ self) Hnh (Transpose (Conjugate Hnh))
                (SizePhysical self).

(** The constructor [LocalLindbladian(H)]: the doubled Hilbert space wraps
    the one of [H]; the three operator members start as [H]; then [Init]. *)
Definition new_LocalLindbladian (H : Op) : LocalLindbladian :=
  Init (mkLindbladian H [] H H (hilbert_size H)).

Definition GetJumpOperators (self : LocalLindbladian) : list Op :=
  jump_ops_ self.

(** [LocalLindbladian::AddJumpOperator]: [push_back], then [Init]. *)
Definition AddJumpOperator (op : Op) (self : LocalLindbladian) : LocalLindbladian :=
  Init (mkLindbladian (H_ self) (jump_ops_ self ++ [op]) (Hnh_ self)
                      (Hnh_dag_ self) (SizePhysical self)).

(** The states an object can be in: constructed, then any number of
    [AddJumpOperator] calls. *)
Inductive reachable : LocalLindbladian -> Prop :=
| reachable_new : forall H, reachable (new_LocalLindbladian H)
| reachable_add : forall op self,
    reachable self -> reachable (AddJumpOperator op self).

(* ===================================================================== *)
(** ** ForEachConnSuperOp *)

Section Enumerator.

Variable S : Type.
Variable self : LocalLindbladian.
Variables vrow vcol : list R.
Variable callback : Callback SuperConn S.

(** Lines 107-110: the connections of [Hnh_dag_] on [vrow]. *)
Definition unitary_row_term : S -> outcome S :=
  let im := Cmake (Rlit 0) (Rlit 1) in
  LocalOperator_ForEachConn (Hnh_dag_ self) vrow (fun conn =>
    callback (mkSuperConn (Cmul im (mel conn)) (tochange conn) (newconf conn) [] [])).

(** Lines 114-117: the connections of [Hnh_] on [vcol]. *)
Definition unitary_col_term : S -> outcome S :=
  let im := Cmake (Rlit 0) (Rlit 1) in
  LocalOperator_ForEachConn (Hnh_ self) vcol (fun conn =>
    callback (mkSuperConn (Cmul (Copp im) (mel conn)) [] [] (tochange conn) (newconf conn))).

(** Lines 121-129: the loop over the jump operators. *)
Definition dissipative_term : S -> outcome S :=
  for_each (fun op =>
    LocalOperator_ForEachConn op vrow (fun conn_row =>
      LocalOperator_ForEachConn op vcol (fun conn_col =>
        callback (mkSuperConn (Cmul (Cconj (mel conn_row)) (mel conn_col))
                              (tochange conn_row) (newconf conn_row)
                              (tochange conn_col) (newconf conn_col)))))
    (jump_ops_ self).

(** [LocalLindbladian::ForEachConnSuperOp]. *)
Definition ForEachConnSuperOp (s : S) : outcome S :=
  s1 <- unitary_row_term s ;;
  s2 <- unitary_col_term s1 ;;
  dissipative_term s2.

End Enumerator.

(* ===================================================================== *)
(** ** The doubled-space adapter *)

(** The body shared by the two lambdas (lines 44-57 and, verbatim, 75-88):
    [tochange] and [newconf] are allocated with
    [tochange_row.size() + tochange_col.size()] cells, then filled by
    [std::copy] / [std::transform]. *)
Definition flat_connection (N : nat) (conn : SuperConn) : outcome Conn :=
  let size := (length (tochange_row conn) + length (tochange_col conn))%nat in
  t1 <- copy_to (tochange_row conn) 0 (repeat 0%Z size) ;;
  t2 <- transform_to (fun i => (i + Z.of_nat N)%Z) (tochange_col conn)
                     (length (tochange_row conn)) t1 ;;
  n1 <- copy_to (newconf_row conn) 0 (repeat (Rlit 0) size) ;;
  n2 <- copy_to (newconf_col conn) (length (newconf_row conn)) n1 ;;
  Ok (mkConn (sup_mel conn) t2 n2).

(** [LocalLindbladian::ForEachConn]. *)
Definition ForEachConn {S : Type} (self : LocalLindbladian) (v : list R)
  (callback : Callback Conn S) (s : S) : outcome S :=
  let N := SizePhysical self in
  vrow <- head N v ;;
  vcol <- tail N v ;;
  ForEachConnSuperOp self vrow vcol
    (fun conn s' => c <- flat_connection N conn ;; callback c s') s.

(** The three output containers of [FindConn]. *)
Record ConnOutputs : Type := mkOutputs {
  out_mel : list C;
  out_connectors : list (list Z);
  out_newconfs : list (list R)
}.

(** [std::vector::clear]. *)
Definition clear {A : Type} (l : list A) : list A := [].

(** The pushes that end the lambda of [FindConn] (lines 90-92). *)
Definition push_conn (c : Conn) (out : ConnOutputs) : ConnOutputs :=
  mkOutputs (out_mel out ++ [mel c])
            (out_connectors out ++ [tochange c])
            (out_newconfs out ++ [newconf c]).

(** [LocalLindbladian::FindConn]. *)
Definition FindConn (self : LocalLindbladian) (v : list R) (out : ConnOutputs)
  : outcome ConnOutputs :=
  let out0 := mkOutputs (clear (out_mel out)) (clear (out_connectors out))
                        (clear (out_newconfs out)) in
  let N := SizePhysical self in
  vrow <- head N v ;;
  vcol <- tail N v ;;
  ForEachConnSuperOp self vrow vcol
    (fun conn o => c <- flat_connection N conn ;; Ok (push_conn c o)) out0.

(* ===================================================================== *)
(** ** The enumeration as the specification words it *)

(** Unitary row term: each connection of [Hnh_dag] on [vrow], scaled by
    [+i], as a pure row-side change. *)
Definition unitary_row_conns (self : LocalLindbladian) (vrow : list R) : list SuperConn :=
  map (fun c => mkSuperConn (Cmul (Cmake (Rlit 0) (Rlit 1)) (mel c))
                            (tochange c) (newconf c) [] [])
      (op_conns (Hnh_dag_ self) vrow).

(** Unitary column term: each connection of [Hnh] on [vcol], scaled by
    [-i], as a pure column-side change. *)
Definition unitary_col_conns (self : LocalLindbladian) (vcol : list R) : list SuperConn :=
  map (fun c => mkSuperConn (Cmul (Copp (Cmake (Rlit 0) (Rlit 1))) (mel c))
                            [] [] (tochange c) (newconf c))
      (op_conns (Hnh_ self) vcol).

(** The superoperator-connection of a pair [(conn_row, conn_col)]. *)
Definition cross_conn (p : Conn * Conn) : SuperConn :=
  mkSuperConn (Cmul (Cconj (mel (fst p))) (mel (snd p)))
              (tochange (fst p)) (newconf (fst p))
              (tochange (snd p)) (newconf (snd p)).

(** Dissipative cross term of one jump operator: one connection per pair
    of a connection on [vrow] and a connection on [vcol], row-major. *)
Definition cross_conns (vrow vcol : list R) (op : Op) : list SuperConn :=
  map cross_conn (list_prod (op_conns op vrow) (op_conns op vcol)).

(** The whole enumeration: unitary row term, unitary column term, then the
    cross terms of the jump operators in list order. *)
Definition superop_conns (self : LocalLindbladian) (vrow vcol : list R) : list SuperConn :=
  unitary_row_conns self vrow ++ unitary_col_conns self vcol
  ++ flat_map (cross_conns vrow vcol) (jump_ops_ self).

(** The flat connection of a superoperator-connection: row indices, then
    column indices shifted by [N]; row values, then column values. *)
Definition flat_conn (N : nat) (conn : SuperConn) : Conn :=
  mkConn (sup_mel conn)
         (tochange_row conn ++ map (fun i => (i + Z.of_nat N)%Z) (tochange_col conn))
         (newconf_row conn ++ newconf_col conn).

(** The effective Hamiltonian of a Hamiltonian and a list of jump
    operators: [H + sum_k (-i/2) adjoint(L_k) L_k], the adjoint written
    [conjugate(transpose(.))], summed in list order. *)
Definition effective_hamiltonian (H : Op) (ops : list Op) : Op :=
  fold_left (fun acc L =>
    op_add acc (op_mul (op_scale (RCmul (Rlit (-1 # 2)) (Cmake (Rlit 0) (Rlit 1)))
                                 (Conjugate (Transpose L))) L))
    ops H.

(** A connection whose index and value lists match in length. *)
Definition well_formed (c : Conn) : Prop :=
  length (tochange c) = length (newconf c).

Definition well_formed_super (c : SuperConn) : Prop :=
  length (tochange_row c) = length (newconf_row c) /\
  length (tochange_col c) = length (newconf_col c).

(** A history of [AddJumpOperator] calls, first element first. *)
Definition AddJumpOperators (ops : list Op) (self : LocalLindbladian) : LocalLindbladian :=
  fold_left (fun acc op => AddJumpOperator op acc) ops self.

(** A site index of an [N]-site configuration. *)
Definition site_in_range (N : nat) (i : Z) : Prop :=
  (0 <= i < Z.of_nat N)%Z.

(** An operator on [N] sites: on every configuration its connections are
    well formed and change sites of the configuration only. *)
Definition conns_in_range (N : nat) (op : Op) : Prop :=
  forall v, Forall (fun c => well_formed c /\ Forall (site_in_range N) (tochange c))
                   (op_conns op v).

(** The three outputs of a sequence of connections, and back. *)
Definition unzip_conns (l : list Conn) : ConnOutputs :=
  mkOutputs (map (@mel R C) l) (map (@tochange R C) l) (map (@newconf R C) l).

Fixpoint zip3 (ms : list C) (cs : list (list Z)) (ns : list (list R)) : list Conn :=
  match ms, cs, ns with
  | m :: ms', c :: cs', n :: ns' => mkConn m c n :: zip3 ms' cs' ns'
  | _, _, _ => []
  end.

Definition zip_outputs (o : ConnOutputs) : list Conn :=
  zip3 (out_mel o) (out_connectors o) (out_newconfs o).

End Lindbladian.

(* ===================================================================== *)
(** ** A one-site instance *)

(** Exact arithmetic on reduced fractions, complex numbers with rational
    parts, and the operators of a single two-level site as 2x2 matrices:
    an implementation of the two interfaces on which the model runs. *)
Module OneSite.

Definition qadd (x y : Q) : Q := Qred (x + y).
Definition qsub (x y : Q) : Q := Qred (x - y).
Definition qmul (x y : Q) : Q := Qred (x * y).
Definition qopp (x : Q) : Q := Qred (- x).

Record Gauss : Type := mkGauss { re : Q; im : Q }.

Definition Gadd (a b : Gauss) : Gauss :=
  mkGauss (qadd (re a) (re b)) (qadd (im a) (im b)).

Definition Gmul (a b : Gauss) : Gauss :=
  mkGauss (qsub (qmul (re a) (re b)) (qmul (im a) (im b)))
          (qadd (qmul (re a) (im b)) (qmul (im a) (re b))).

Definition Gopp (a : Gauss) : Gauss := mkGauss (qopp (re a)) (qopp (im a)).

Definition Gconj (a : Gauss) : Gauss := mkGauss (re a) (qopp (im a)).

Definition Gscale (x : Q) (a : Gauss) : Gauss :=
  mkGauss (qmul x (re a)) (qmul x (im a)).

Definition Gzero : Gauss := mkGauss 0 0.
Definition Gone : Gauss := mkGauss 1 0.

Definition Gnonzero (a : Gauss) : bool :=
  negb (Qeq_bool (re a) 0 && Qeq_bool (im a) 0).

#[global] Instance scalars : ScalarOps Q Gauss := {
  Rlit := Qred;
  Cmake := mkGauss;
  Cmul := Gmul;
  Copp := Gopp;
  Cconj := Gconj;
  RCmul := Gscale
}.

(** Rows and columns are indexed by the value of the site: [0] or [1]. *)
Record Mat2 : Type := mkMat2 { m00 : Gauss; m01 : Gauss; m10 : Gauss; m11 : Gauss }.

Definition Madd (a b : Mat2) : Mat2 :=
  mkMat2 (Gadd (m00 a) (m00 b)) (Gadd (m01 a) (m01 b))
         (Gadd (m10 a) (m10 b)) (Gadd (m11 a) (m11 b)).

Definition Mmul (a b : Mat2) : Mat2 :=
  mkMat2 (Gadd (Gmul (m00 a) (m00 b)) (Gmul (m01 a) (m10 b)))
         (Gadd (Gmul (m00 a) (m01 b)) (Gmul (m01 a) (m11 b)))
         (Gadd (Gmul (m10 a) (m00 b)) (Gmul (m11 a) (m10 b)))
         (Gadd (Gmul (m10 a) (m01 b)) (Gmul (m11 a) (m11 b))).

Definition Mscale (z : Gauss) (a : Mat2) : Mat2 :=
  mkMat2 (Gmul z (m00 a)) (Gmul z (m01 a)) (Gmul z (m10 a)) (Gmul z (m11 a)).

Definition Mconj (a : Mat2) : Mat2 :=
  mkMat2 (Gconj (m00 a)) (Gconj (m01 a)) (Gconj (m10 a)) (Gconj (m11 a)).

Definition Mtranspose (a : Mat2) : Mat2 :=
  mkMat2 (m00 a) (m10 a) (m01 a) (m11 a).

(** The non-zero entries of the row of [a] selected by the configuration:
    the diagonal one changes no site, the other one flips site [0]. *)
Definition Mconns (a : Mat2) (v : list Q) : list (ConnectorRef Q Gauss) :=
  match v with
  | [x] =>
      let '(diag, off, flipped) :=
        if Qeq_bool x 0 then (m00 a, m01 a, 1%Q) else (m11 a, m10 a, 0%Q) in
      (if Gnonzero diag then [mkConn diag [] []] else [])
      ++ (if Gnonzero off then [mkConn off [0%Z] [flipped]] else [])
  | _ => []
  end.

#[global] Instance operators : LocalOperatorOps Q Gauss Mat2 := {
  hilbert_size := fun _ => 1%nat;
  op_conns := Mconns;
  op_add := Madd;
  op_mul := Mmul;
  op_scale := Mscale;
  Conjugate := Mconj;
  Transpose := Mtranspose
}.

Definition Mzero : Mat2 := mkMat2 Gzero Gzero Gzero Gzero.

(** The flip of the site (matrix element 1), the lowering operator, and
    the number operator. *)
Definition flip : Mat2 := mkMat2 Gzero Gone Gone Gzero.
Definition lower : Mat2 := mkMat2 Gzero Gone Gzero Gzero.

(** A closed system, and open systems with one and two decay channels. *)
Definition closed_flip : @LocalLindbladian Mat2 := new_LocalLindbladian flip.
Definition damped : @LocalLindbladian Mat2 :=
  AddJumpOperator flip (new_LocalLindbladian Mzero).
Definition decaying : @LocalLindbladian Mat2 :=
  AddJumpOperator lower (new_LocalLindbladian flip).

End OneSite.

(* ===================================================================== *)
(** ** The one-site instance in binary64 arithmetic *)

(** The same interfaces with the arithmetic the source computes in:
    [double] is IEEE binary64 (the primitive floats of the kernel, rounded
    to nearest, ties to even) and [std::complex<double>] a pair of doubles
    with the component-wise sum and the four-product multiplication.  The
    operators of the site are 2x2 matrices again; their sum is entry by
    entry, their product row by column, each in the order written. *)
Module Binary64.

Import PrimFloat.
Local Open Scope float_scope.

(** The double nearest to the fraction [q], as a decimal literal of the
    source is read; numerator and denominator are below [2^53]. *)
Definition literal (q : Q) : float :=
  let magnitude := of_uint63 (Uint63.of_Z (Z.abs (Qnum q))) in
  (if (Qnum q <? 0)%Z then - magnitude else magnitude)
  / of_uint63 (Uint63.of_Z (Z.pos (Qden q))).

Record Complex : Type := mkComplex { real : float; imag : float }.

Definition cadd (a b : Complex) : Complex :=
  mkComplex (real a + real b) (imag a + imag b).

Definition cmul (a b : Complex) : Complex :=
  mkComplex (real a * real b - imag a * imag b)
            (real a * imag b + imag a * real b).

Definition copp (a : Complex) : Complex := mkComplex (- real a) (- imag a).

Definition cconj (a : Complex) : Complex := mkComplex (real a) (- imag a).

Definition cscale (x : float) (a : Complex) : Complex :=
  mkComplex (x * real a) (x * imag a).


Definition cnonzero (a : Complex) : bool :=
  negb ((real a =? 0) && (imag a =? 0)).

#[global] Instance scalars : ScalarOps float Complex := {
  Rlit := literal;
  Cmake := mkComplex;
  Cmul := cmul;
  Copp := copp;
  Cconj := cconj;
  RCmul := cscale
}.

(** Rows and columns are indexed by the value of the site: [0] or [1]. *)
Record Matrix : Type := mkMatrix {
  e00 : Complex; e01 : Complex; e10 : Complex; e11 : Complex
}.

Definition matrix_add (a b : Matrix) : Matrix :=
  mkMatrix (cadd (e00 a) (e00 b)) (cadd (e01 a) (e01 b))
           (cadd (e10 a) (e10 b)) (cadd (e11 a) (e11 b)).

Definition matrix_mul (a b : Matrix) : Matrix :=
  mkMatrix (cadd (cmul (e00 a) (e00 b)) (cmul (e01 a) (e10 b)))
           (cadd (cmul (e00 a) (e01 b)) (cmul (e01 a) (e11 b)))
           (cadd (cmul (e10 a) (e00 b)) (cmul (e11 a) (e10 b)))
           (cadd (cmul (e10 a) (e01 b)) (cmul (e11 a) (e11 b))).

Definition matrix_scale (z : Complex) (a : Matrix) : Matrix :=
  mkMatrix (cmul z (e00 a)) (cmul z (e01 a)) (cmul z (e10 a)) (cmul z (e11 a)).

Definition matrix_conj (a : Matrix) : Matrix :=
  mkMatrix (cconj (e00 a)) (cconj (e01 a)) (cconj (e10 a)) (cconj (e11 a)).

Definition matrix_transpose (a : Matrix) : Matrix :=
  mkMatrix (e00 a) (e10 a) (e01 a) (e11 a).

(** The non-zero entries of the row of [a] selected by the configuration:
    the diagonal one changes no site, the other one flips site [0]. *)
Definition matrix_conns (a : Matrix) (v : list float)
  : list (ConnectorRef float Complex) :=
  match v with
  | [x] =>
      let '(diag, off, flipped) :=
        if x =? 0 then (e00 a, e01 a, 1) else (e11 a, e10 a, 0) in
      (if cnonzero diag then [mkConn diag [] []] else [])
      ++ (if cnonzero off then [mkConn off [0%Z] [flipped]] else [])
  | _ => []
  end.

#[global] Instance operators : LocalOperatorOps float Complex Matrix := {
  hilbert_size := fun _ => 1%nat;
  op_conns := matrix_conns;
  op_add := matrix_add;
  op_mul := matrix_mul;
  op_scale := matrix_scale;
  Conjugate := matrix_conj;
  Transpose := matrix_transpose
}.







End Binary64.

(* ===================================================================== *)
(** ** The fully connected layer *)

(** A shallow embedding of [NetKet/Machine/fullconn_layer.hpp].

    - The scalar type [T] of the template is a type parameter with the size
      [sizeof_T] of its cells in bytes.  [Init] stores
      [sizeof(std::complex<double>)] in [scalar_bytesize_] whatever [T] is,
      and the [memcpy] calls count in bytes of that size: they copy the
      coefficients they are meant to copy when [sizeof_T] is
      [scalar_bytesize_], and the statements about them say so.
    - The arithmetic of the scalar type is kept abstract ([LayerScalar]).
      Eigen does not fix the order in which a product adds its terms; the
      model adds them in index order, and the statements that depend on sums
      are made for exact arithmetic (a commutative ring).
    - [MatrixType] is Eigen's default, column-major: coefficient [(i, j)] of
      the [in_size_ x out_size_] matrix [weight_] is cell [i + j * in_size_]
      of its data.
    - Sizes and [start_idx] are natural numbers: the non-negative [int]s on
      which [resize] and the pointer offsets are defined.  Sums and products
      of sizes are those of the naturals; the statements about them assume
      that they fit in an [int] ([int_range]); [std::size_t] is taken to
      be wide enough for the byte counts of such sizes (64 bits).
    - A size that Eigen asserts, or a cell outside a buffer, is a failure
      of the model. *)

(** The values of a 32-bit [int]. *)
Definition INT_MAX : Z := 2147483647.
Definition INT_MIN : Z := -2147483648.

Definition int_range (z : Z) : Prop := (INT_MIN <= z <= INT_MAX)%Z.

(** [sizeof(std::complex<double>)] in bytes: two doubles of 8 bytes. *)
Definition sizeof_complex_double : nat := 16.

(** The member [scalar_bytesize_]: [Init] sets it to
    [sizeof(std::complex<double>)] (line 63), for every scalar type of the
    template, and nothing else writes it. *)
Definition scalar_bytesize_ : nat := sizeof_complex_double.

Class LayerScalar (T : Type) : Type := {
  T0 : T;                  (* the zero of [setZero] *)
  Tadd : T -> T -> T;
  Tsub : T -> T -> T;
  Tmul : T -> T -> T
}.

Section FullyConnectedLayer.

Context {T : Type} {arith : LayerScalar T}.

(** The members the methods read and write ([name_] and
    [scalar_bytesize_] are constants of [Init]). *)
Record FullyConnected : Type := mkLayer {
  usebias_ : bool;
  in_size_ : nat;
  out_size_ : nat;
  npar_ : nat;
  weight_ : list T;      (* the data of [weight_], column-major *)
  bias_ : list T
}.

(** [FullyConnected::Init] on the members set by the constructor.
    [resize] leaves the coefficients uninitialised: [raw_weight] and
    [raw_bias] stand for whatever the fresh storage holds. *)
Definition layer_Init (raw_weight raw_bias : nat -> T) (use_bias : bool)
  (input_size output_size : nat) : FullyConnected :=
  let npar := (input_size * output_size)%nat in
  mkLayer use_bias input_size output_size
          (if use_bias then (npar + output_size)%nat else npar)
          (map raw_weight (seq 0 (input_size * output_size)))
          (if use_bias then map raw_bias (seq 0 output_size)
           else repeat T0 output_size).

Definition Npar (self : FullyConnected) : nat := npar_ self.
Definition Ninput (self : FullyConnected) : nat := in_size_ self.
Definition Noutput (self : FullyConnected) : nat := out_size_ self.

(** [std::memcpy(dst + doff, src + soff, count)] between two arrays whose
    cells take [sizeof_A] bytes each: [count] is a number of bytes, and the
    two byte ranges must exist.  The model copies whole cells: a count that
    is not a multiple of the cell size would end inside a cell, which has no
    value in the model, and is counted with the failures. *)
Definition memcpy {A : Type} (sizeof_A : nat) (dst : list A) (doff : nat)
  (src : list A) (soff count : nat) : outcome (list A) :=
  let n := (count / sizeof_A)%nat in
  if ((0 <? sizeof_A) && (count mod sizeof_A =? 0)
      && (soff + n <=? length src) && (doff + n <=? length dst))%nat
  then Ok (firstn doff dst ++ firstn n (skipn soff src) ++ skipn (doff + n) dst)
  else Fail OutOfRange.

(** [sizeof(T)], the size in bytes of a cell of [weight_], [bias_] and the
    parameter vectors. *)
Variable sizeof_T : nat.

(** [FullyConnected::GetParameters]. *)
Definition GetParameters (self : FullyConnected) (pars : list T) (start_idx : nat)
  : outcome (list T) :=
  let k := start_idx in
  if usebias_ self then
    pars1 <- memcpy sizeof_T pars k (bias_ self) 0
                    (out_size_ self * scalar_bytesize_) ;;
    memcpy sizeof_T pars1 (k + out_size_ self) (weight_ self) 0
           (in_size_ self * out_size_ self * scalar_bytesize_)
  else
    memcpy sizeof_T pars k (weight_ self) 0
           (in_size_ self * out_size_ self * scalar_bytesize_).

(** [FullyConnected::SetParameters]. *)
Definition SetParameters (self : FullyConnected) (pars : list T) (start_idx : nat)
  : outcome FullyConnected :=
  let k := start_idx in
  if usebias_ self then
    bias1 <- memcpy sizeof_T (bias_ self) 0 pars k
                    (out_size_ self * scalar_bytesize_) ;;
    weight1 <- memcpy sizeof_T (weight_ self) 0 pars (k + out_size_ self)
                      (in_size_ self * out_size_ self * scalar_bytesize_) ;;
    Ok (mkLayer (usebias_ self) (in_size_ self) (out_size_ self) (npar_ self)
                weight1 bias1)
  else
    weight1 <- memcpy sizeof_T (weight_ self) 0 pars k
                      (in_size_ self * out_size_ self * scalar_bytesize_) ;;
    Ok (mkLayer (usebias_ self) (in_size_ self) (out_size_ self) (npar_ self)
                weight1 (bias_ self)).

(** [FullyConnected::InitRandomPars]: [sample i] is the [i]-th coefficient
    that [RandomGaussian] (outside the sources at hand) writes into the
    vector [par] of [npar_] coefficients. *)
Definition InitRandomPars (sample : nat -> T) (self : FullyConnected)
  : outcome FullyConnected :=
  let par := map sample (seq 0 (npar_ self)) in
  SetParameters self par 0.

(** Coefficient [(i, j)], column [j] and row [i] of [weight_]. *)
Definition weight_coeff (self : FullyConnected) (i j : nat) : T :=
  nth (i + j * in_size_ self) (weight_ self) T0.

Definition weight_col (self : FullyConnected) (j : nat) : list T :=
  map (fun i => weight_coeff self i j) (seq 0 (in_size_ self)).

Definition weight_row (self : FullyConnected) (i : nat) : list T :=
  map (fun j => weight_coeff self i j) (seq 0 (out_size_ self)).

(** The inner product of a row or column of a matrix with a vector, terms
    added in index order. *)
Fixpoint dot (a b : list T) : T :=
  match a, b with
  | x :: a', y :: b' => Tadd (Tmul x y) (dot a' b')
  | _, _ => T0
  end.

(** Coefficient-wise sum of two vectors of one size. *)
Fixpoint vec_add (a b : list T) : list T :=
  match a, b with
  | x :: a', y :: b' => Tadd x y :: vec_add a' b'
  | _, _ => []
  end.

(** [FullyConnected::LinearTransformation]: [output = bias_], then
    [output += weight_.transpose() * input]. *)
Definition LinearTransformation (self : FullyConnected) (input : list T)
  : outcome (list T) :=
  if ((length input =? in_size_ self) && (length (bias_ self) =? out_size_ self))%nat
  then Ok (vec_add (bias_ self)
                   (map (fun j => dot (weight_col self j) input)
                        (seq 0 (out_size_ self))))
  else Fail OutOfRange.

(** [FullyConnected::Forward]; the lookup table is not used. *)
Definition Forward (self : FullyConnected) (prev_layer_output : list T)
  : outcome (list T) :=
  LinearTransformation self prev_layer_output.

(** Coefficient [i] of an Eigen vector, [v(i)] with an [int] index. *)
Definition coeff_at {A : Type} (v : list A) (i : Z) : outcome A :=
  if (i <? 0)%Z then Fail OutOfRange
  else match nth_error v (Z.to_nat i) with
       | Some x => Ok x
       | None => Fail OutOfRange
       end.

(** One turn of the loop of [UpdateOutput], for the position [s] of the
    change list:
    [new_output += weight_.row(sf) * (new_input(s) - v(sf))]. *)
Definition UpdateOutput_step (self : FullyConnected) (v new_input : list T)
  (s : nat) (sf : Z) (new_output : list T) : outcome (list T) :=
  if ((sf <? 0)%Z || (Z.of_nat (in_size_ self) <=? sf)%Z
      || negb (length new_output =? out_size_ self)%nat)%bool
  then Fail OutOfRange
  else
    a <- coeff_at new_input (Z.of_nat s) ;;
    b <- coeff_at v sf ;;
    Ok (vec_add new_output
                (map (fun w => Tmul w (Tsub a b)) (weight_row self (Z.to_nat sf)))).

Fixpoint UpdateOutput_loop (self : FullyConnected) (v new_input : list T)
  (s : nat) (input_changes : list Z) (new_output : list T) : outcome (list T) :=
  match input_changes with
  | [] => Ok new_output
  | sf :: rest =>
      new_output' <- UpdateOutput_step self v new_input s sf new_output ;;
      UpdateOutput_loop self v new_input (S s) rest new_output'
  end.

(** [FullyConnected::UpdateOutput] (the overload whose new values are a
    vector of the scalar type): [new_output = output], then the loop. *)
Definition UpdateOutput (self : FullyConnected) (v : list T) (input_changes : list Z)
  (new_input output : list T) : outcome (list T) :=
  UpdateOutput_loop self v new_input 0 input_changes output.

(** [std::vector<int>::resize(n)]: the first [n] entries, zero-filled. *)
Definition vector_resize (n : nat) (l : list Z) : list Z :=
  firstn n l ++ repeat 0%Z (n - length l).

(** [FullyConnected::UpdateLookup] (the overload whose new values are a
    vector of the scalar type).  The result is the pair
    [(output_changes, new_output)]; [new_output] is overwritten as a whole
    by [Forward] and by [UpdateOutput], and emptied otherwise. *)
Definition UpdateLookup (self : FullyConnected) (input : list T)
  (input_changes : list Z) (new_input output : list T) (output_changes : list Z)
  : outcome (list Z * list T) :=
  let num_of_changes := length input_changes in
  if (num_of_changes =? in_size_ self)%nat then
    new_output <- Forward self new_input ;;
    Ok (vector_resize (out_size_ self) output_changes, new_output)
  else if (0 <? num_of_changes)%nat then
    new_output <- UpdateOutput self input input_changes new_input output ;;
    Ok (vector_resize (out_size_ self) output_changes, new_output)
  else
    Ok (vector_resize 0 output_changes, []).

(** The data of the outer product [prev_layer_output * dout.transpose()],
    column-major. *)
Definition outer_product (prev dout : list T) : list T :=
  flat_map (fun d => map (fun p => Tmul p d) prev) dout.

(** [FullyConnected::Backprop]: the result is the pair [(din, der)]. *)
Definition Backprop (self : FullyConnected) (prev_layer_output dout der : list T)
  (start_idx : nat) : outcome (list T * list T) :=
  let k := start_idx in
  let sized := ((length prev_layer_output =? in_size_ self)
                && (length dout =? out_size_ self))%nat in
  der1 <- (if usebias_ self then
             if (length dout =? out_size_ self)%nat
             then copy_to dout k der else Fail OutOfRange
           else Ok der) ;;
  let k' := if usebias_ self then (k + out_size_ self)%nat else k in
  der2 <- (if sized then copy_to (outer_product prev_layer_output dout) k' der1
           else Fail OutOfRange) ;;
  if (length dout =? out_size_ self)%nat
  then Ok (map (fun i => dot (weight_row self i) dout) (seq 0 (in_size_ self)), der2)
  else Fail OutOfRange.

(** The members as [Init] sizes them. *)
Definition layer_sized (self : FullyConnected) : Prop :=
  length (weight_ self) = (in_size_ self * out_size_ self)%nat
  /\ length (bias_ self) = out_size_ self
  /\ npar_ self = ((if usebias_ self then out_size_ self else 0)
                   + in_size_ self * out_size_ self)%nat.

(** The parameters in the order of [GetParameters]: the bias, when the
    layer has one, then the weights column by column. *)
Definition parameters (self : FullyConnected) : list T :=
  (if usebias_ self then bias_ self else []) ++ weight_ self.

(** [n] cells of [l] from position [k]. *)
Definition slice {A : Type} (k n : nat) (l : list A) : list A :=
  firstn n (skipn k l).

(** A vector with coefficient [i] replaced by [x]. *)
Fixpoint set_coeff (i : nat) (x : T) (v : list T) : list T :=
  match v, i with
  | [], _ => []
  | _ :: v', O => x :: v'
  | y :: v', S i' => y :: set_coeff i' x v'
  end.

(** The input after the changes: site [input_changes[s]] takes the value
    [new_input[s]]. *)
Fixpoint changed_input (input_changes : list Z) (new_input v : list T) : list T :=
  match input_changes, new_input with
  | sf :: rest, x :: new_input' =>
      changed_input rest new_input' (set_coeff (Z.to_nat sf) x v)
  | _, _ => v
  end.

(** The affine map of the layer, without its size checks: coefficient [j]
    is [bias_(j)] plus the inner product of column [j] of [weight_] with
    the input. *)
Definition affine (self : FullyConnected) (x : list T) : list T :=
  vec_add (bias_ self)
          (map (fun j => dot (weight_col self j) x) (seq 0 (out_size_ self))).

(** The sum of [f 0], ..., [f (n - 1)]. *)
Fixpoint big_sum (f : nat -> T) (n : nat) : T :=
  match n with
  | O => T0
  | S n' => Tadd (big_sum f n') (f n')
  end.

End FullyConnectedLayer.

(** The layer over the integers, on which the model runs. *)
#[global] Instance integer_arith : LayerScalar Z := {
  T0 := 0%Z;
  Tadd := Z.add;
  Tsub := Z.sub;
  Tmul := Z.mul
}.

(** Two inputs, two outputs and a bias: the weights [1 3; 2 4] (stored
    column by column) and the bias [(10, 20)]. *)
Definition small_layer : @FullyConnected Z :=
  mkLayer true 2 2 6 [1; 2; 3; 4]%Z [10; 20]%Z.

(* ===================================================================== *)
(** * Properties *)

(** ** Loops and callbacks *)

Section Loops.

Context {A B S : Type}.

Lemma for_each_app (f : Callback A S) (l1 l2 : list A) (s : S) :
  for_each f (l1 ++ l2) s = (s' <- for_each f l1 s ;; for_each f l2 s').
Proof.
  revert s; induction l1 as [|a l1 IH]; intro s; simpl.
  - reflexivity.
  - destruct (f a s) as [s1|e]; simpl; [apply IH | reflexivity].
Qed.

Lemma for_each_ext (f g : Callback A S) (l : list A) (s : S) :
  (forall a t, In a l -> f a t = g a t) ->
  for_each f l s = for_each g l s.
Proof.
  revert s; induction l as [|a l IH]; intros s Hfg; simpl.
  - reflexivity.
  - rewrite (Hfg a s (or_introl eq_refl)).
    destruct (g a s) as [s1|e]; simpl; [|reflexivity].
    apply IH. intros b t Hb. apply Hfg. now right.
Qed.

Lemma for_each_map (g : B -> A) (f : Callback A S) (l : list B) (s : S) :
  for_each f (map g l) s = for_each (fun b => f (g b)) l s.
Proof.
  revert s; induction l as [|b l IH]; intro s; simpl.
  - reflexivity.
  - destruct (f (g b) s) as [s1|e]; simpl; [apply IH | reflexivity].
Qed.

(** A loop whose body is itself an enumeration visits the concatenation. *)
Lemma for_each_flat_map (g : B -> list A) (f : Callback A S) (l : list B) (s : S) :
  for_each (fun b => for_each f (g b)) l s = for_each f (flat_map g l) s.
Proof.
  revert s; induction l as [|b l IH]; intro s; simpl.
  - reflexivity.
  - rewrite for_each_app.
    destruct (for_each f (g b) s) as [s1|e]; simpl; [apply IH | reflexivity].
Qed.

(** A failing invocation ends the enumeration: what follows is not
    visited. *)
Lemma for_each_abort (f : Callback A S) (l1 l2 : list A) (a : A) (s s1 : S)
  (e : failure) :
  for_each f l1 s = Ok s1 ->
  f a s1 = Fail e ->
  for_each f (l1 ++ a :: l2) s = Fail e.
Proof.
  intros H1 Ha. rewrite for_each_app, H1. simpl. now rewrite Ha.
Qed.

Lemma for_each_record (l seen : list A) :
  for_each record_cb l seen = Ok (seen ++ l).
Proof.
  revert seen; induction l as [|a l IH]; intro seen; simpl.
  - now rewrite app_nil_r.
  - rewrite IH, <- app_assoc. reflexivity.
Qed.

(** Recording through a fallible adapter [k] is the element-wise
    transformation of the enumerated list. *)
Lemma for_each_record_through (k : A -> outcome B) (l : list A) (seen : list B) :
  for_each (fun a t => b <- k a ;; record_cb b t) l seen
  = outcome_map (app seen) (map_outcome k l).
Proof.
  revert seen; induction l as [|a l IH]; intro seen; simpl.
  - unfold outcome_map; simpl. now rewrite app_nil_r.
  - destruct (k a) as [b|e]; simpl; [|reflexivity].
    rewrite IH. unfold outcome_map.
    destruct (map_outcome k l) as [bs|e]; simpl; [|reflexivity].
    now rewrite <- app_assoc.
Qed.

Lemma map_outcome_total (k : A -> outcome B) (h : A -> B) (l : list A) :
  (forall a, In a l -> k a = Ok (h a)) ->
  map_outcome k l = Ok (map h l).
Proof.
  induction l as [|a l IH]; intro Hk; simpl.
  - reflexivity.
  - rewrite (Hk a (or_introl eq_refl)); simpl.
    rewrite IH; [reflexivity|]. intros b Hb. apply Hk. now right.
Qed.

End Loops.

(* ===================================================================== *)
(** ** The superoperator enumerator *)

Section EnumeratorFacts.

Context {R C Op : Type}.
Context {scalars : ScalarOps R C}.
Context {operators : LocalOperatorOps R C Op}.

Local Abbreviation Conn := (ConnectorRef R C).
Local Abbreviation SuperConn := (ConnectorSuperopRef R C).
Local Abbreviation Lindbladian := (@LocalLindbladian Op).

Variable S : Type.
Variable self : Lindbladian.
Variables vrow vcol : list R.

Lemma unitary_row_term_fold (callback : Callback SuperConn S) (s : S) :
  unitary_row_term self vrow callback s
  = for_each callback (unitary_row_conns self vrow) s.
Proof.
  unfold unitary_row_term, unitary_row_conns, LocalOperator_ForEachConn.
  now rewrite for_each_map.
Qed.

Lemma unitary_col_term_fold (callback : Callback SuperConn S) (s : S) :
  unitary_col_term self vcol callback s
  = for_each callback (unitary_col_conns self vcol) s.
Proof.
  unfold unitary_col_term, unitary_col_conns, LocalOperator_ForEachConn.
  now rewrite for_each_map.
Qed.

(** The two nested enumerations of one jump operator visit the pairs of
    [list_prod], row-major. *)
Lemma nested_for_each_prod (callback : Callback SuperConn S)
  (rows cols : list Conn) (s : S) :
  for_each (fun conn_row =>
    for_each (fun conn_col => callback (cross_conn (conn_row, conn_col))) cols)
    rows s
  = for_each callback (map cross_conn (list_prod rows cols)) s.
Proof.
  revert s; induction rows as [|r rows IH]; intro s; simpl.
  - reflexivity.
  - rewrite map_app, for_each_app, map_map, for_each_map.
    destruct (for_each _ cols s) as [s1|e]; simpl; [apply IH | reflexivity].
Qed.

Lemma dissipative_term_fold (callback : Callback SuperConn S) (s : S) :
  dissipative_term self vrow vcol callback s
  = for_each callback (flat_map (cross_conns vrow vcol) (jump_ops_ self)) s.
Proof.
  unfold dissipative_term, LocalOperator_ForEachConn.
  rewrite <- for_each_flat_map.
  apply for_each_ext. intros op t _.
  unfold cross_conns. now rewrite <- nested_for_each_prod.
Qed.

Lemma ForEachConnSuperOp_fold (callback : Callback SuperConn S) (s : S) :
  ForEachConnSuperOp self vrow vcol callback s
  = for_each callback (superop_conns self vrow vcol) s.
Proof.
  unfold ForEachConnSuperOp, superop_conns.
  rewrite unitary_row_term_fold, for_each_app.
  destruct (for_each callback (unitary_row_conns self vrow) s) as [s1|e];
    simpl; [|reflexivity].
  rewrite unitary_col_term_fold, for_each_app.
  destruct (for_each callback (unitary_col_conns self vcol) s1) as [s2|e];
    simpl; [|reflexivity].
  apply dissipative_term_fold.
Qed.

Lemma cross_conns_length (op : Op) :
  length (cross_conns vrow vcol op)
  = (length (op_conns op vrow) * length (op_conns op vcol))%nat.
Proof.
  unfold cross_conns. now rewrite length_map, length_prod.
Qed.

Lemma cross_conns_In (op : Op) (x : SuperConn) :
  In x (cross_conns vrow vcol op) <->
  exists conn_row conn_col,
    In conn_row (op_conns op vrow) /\ In conn_col (op_conns op vcol) /\
    x = cross_conn (conn_row, conn_col).
Proof.
  unfold cross_conns. rewrite in_map_iff. split.
  - intros [[r c] [Hx Hin]]. apply in_prod_iff in Hin.
    exists r, c. intuition.
  - intros (r & c & Hr & Hc & ->). exists (r, c).
    split; [reflexivity | now apply in_prod_iff].
Qed.

Lemma firstn_exact_length (A : Type) (a b : list A) (n : nat) :
  n = length a -> firstn n (a ++ b) = a.
Proof.
  intros ->. rewrite firstn_app, firstn_all, Nat.sub_diag. simpl.
  apply app_nil_r.
Qed.

Lemma skipn_exact_length (A : Type) (a b : list A) (n : nat) :
  n = length a -> skipn n (a ++ b) = b.
Proof.
  intros ->. now rewrite skipn_app, skipn_all, Nat.sub_diag.
Qed.

Lemma flat_map_length_sum (A B : Type) (g : A -> list B) (l : list A) :
  length (flat_map g l) = list_sum (map (fun a => length (g a)) l).
Proof.
  induction l as [|a l IH]; simpl; [reflexivity|].
  now rewrite length_app, IH.
Qed.

End EnumeratorFacts.

(* ===================================================================== *)
(** ** The doubled-space adapter *)

(** Case analysis on the two Eigen blocks taken from the configuration;
    [close] settles the cases where a block is out of range. *)
Ltac split_configuration self v close :=
  destruct (head (SizePhysical self) v) as [?vrow|?e]; simpl; [|solve [close]];
  destruct (tail (SizePhysical self) v) as [?vcol|?e]; simpl; [|solve [close]].

Section AdapterFacts.

Context {R C Op : Type}.
Context {scalars : ScalarOps R C}.
Context {operators : LocalOperatorOps R C Op}.

Local Abbreviation Conn := (ConnectorRef R C).
Local Abbreviation SuperConn := (ConnectorSuperopRef R C).
Local Abbreviation Lindbladian := (@LocalLindbladian Op).
Local Abbreviation Outputs := (@ConnOutputs R C).

Lemma outcome_map_id (A : Type) (m : outcome (list A)) :
  outcome_map (app []) m = m.
Proof. destruct m; reflexivity. Qed.

Lemma outcome_map_map (X Y Z : Type) (f : X -> Y) (g : Y -> Z) (m : outcome X) :
  outcome_map g (outcome_map f m) = outcome_map (fun x => g (f x)) m.
Proof. destruct m; reflexivity. Qed.

Lemma outcome_map_ext (X Y : Type) (f g : X -> Y) (m : outcome X) :
  (forall x, f x = g x) -> outcome_map f m = outcome_map g m.
Proof. intro E. destruct m; simpl; [now rewrite E | reflexivity]. Qed.

(** Overwriting a padding of the right length that follows [pre]. *)
Lemma copy_to_fill (A : Type) (src pre pad post : list A) :
  length pad = length src ->
  copy_to src (length pre) (pre ++ pad ++ post) = Ok (pre ++ src ++ post).
Proof.
  intro Hlen. unfold copy_to.
  rewrite !length_app, Hlen.
  replace (length pre + length src <=? length pre + (length src + length post))%nat
    with true by (symmetry; apply Nat.leb_le; lia).
  rewrite firstn_app, firstn_all, Nat.sub_diag, firstn_O, app_nil_r.
  rewrite skipn_app, skipn_all2 by lia. simpl.
  replace (length pre + length src - length pre)%nat with (length pad) by lia.
  rewrite skipn_app, skipn_all, Nat.sub_diag. simpl.
  reflexivity.
Qed.

Lemma copy_to_front (A : Type) (src pad post : list A) :
  length pad = length src ->
  copy_to src 0 (pad ++ post) = Ok (src ++ post).
Proof. intro H. exact (copy_to_fill src [] pad post H). Qed.

Lemma copy_to_back (A : Type) (src pre pad : list A) :
  length pad = length src ->
  copy_to src (length pre) (pre ++ pad) = Ok (pre ++ src).
Proof.
  intro H. pose proof (copy_to_fill src pre pad [] H) as E.
  now rewrite !app_nil_r in E.
Qed.

(** On a well-formed superoperator-connection the buffers are filled
    exactly: the flat connection is the concatenation. *)
Lemma flat_connection_well_formed (N : nat) (conn : SuperConn) :
  well_formed_super conn ->
  flat_connection N conn = Ok (flat_conn N conn).
Proof.
  intros [Hrow Hcol]. unfold flat_connection, transform_to, flat_conn.
  cbv zeta. rewrite !repeat_app.
  rewrite copy_to_front by apply repeat_length.
  cbn [bind].
  rewrite copy_to_back by (now rewrite repeat_length, length_map).
  cbn [bind].
  rewrite copy_to_front by (now rewrite repeat_length).
  cbn [bind].
  rewrite copy_to_back by (now rewrite repeat_length).
  reflexivity.
Qed.

Lemma ForEachConn_fold (S : Type) (self : Lindbladian) (v : list R)
  (callback : Callback Conn S) (s : S) :
  ForEachConn self v callback s
  = (vrow <- head (SizePhysical self) v ;;
     vcol <- tail (SizePhysical self) v ;;
     for_each (fun conn s' =>
                 c <- flat_connection (SizePhysical self) conn ;; callback c s')
              (superop_conns self vrow vcol) s).
Proof.
  unfold ForEachConn.
  split_configuration self v ltac:(reflexivity).
  apply ForEachConnSuperOp_fold.
Qed.

Lemma ForEachConn_record (self : Lindbladian) (v : list R) :
  ForEachConn self v record_cb []
  = (vrow <- head (SizePhysical self) v ;;
     vcol <- tail (SizePhysical self) v ;;
     map_outcome (flat_connection (SizePhysical self))
                 (superop_conns self vrow vcol)).
Proof.
  rewrite ForEachConn_fold.
  split_configuration self v ltac:(reflexivity).
  rewrite for_each_record_through. apply outcome_map_id.
Qed.

(** The pushes append after whatever the containers hold. *)
Lemma push_conns_append (cs : list Conn) (out : Outputs) :
  fold_left (fun o c => push_conn c o) cs out
  = mkOutputs (out_mel out ++ map (@mel R C) cs)
              (out_connectors out ++ map (@tochange R C) cs)
              (out_newconfs out ++ map (@newconf R C) cs).
Proof.
  revert out; induction cs as [|c cs IH]; intro out; simpl.
  - rewrite !app_nil_r. now destruct out.
  - rewrite IH. unfold push_conn; simpl. now rewrite <- !app_assoc.
Qed.

Lemma collect_through (A : Type) (k : A -> outcome Conn) (l : list A) (out : Outputs) :
  for_each (fun a o => c <- k a ;; Ok (push_conn c o)) l out
  = outcome_map (fun cs => fold_left (fun o c => push_conn c o) cs out)
                (map_outcome k l).
Proof.
  revert out; induction l as [|a l IH]; intro out; simpl.
  - reflexivity.
  - destruct (k a) as [c|e]; simpl; [|reflexivity].
    rewrite IH. unfold outcome_map.
    destruct (map_outcome k l) as [cs|e]; reflexivity.
Qed.

Lemma FindConn_fold (self : Lindbladian) (v : list R) (out : Outputs) :
  FindConn self v out
  = (vrow <- head (SizePhysical self) v ;;
     vcol <- tail (SizePhysical self) v ;;
     outcome_map unzip_conns
       (map_outcome (flat_connection (SizePhysical self))
                    (superop_conns self vrow vcol))).
Proof.
  unfold FindConn, clear.
  split_configuration self v ltac:(reflexivity).
  rewrite ForEachConnSuperOp_fold, collect_through.
  apply outcome_map_ext. intro cs. now rewrite push_conns_append.
Qed.

Lemma zip_unzip_conns (l : list Conn) :
  zip_outputs (unzip_conns l) = l.
Proof.
  unfold zip_outputs, unzip_conns; simpl.
  induction l as [|[m t n] l IH]; simpl; [reflexivity | now rewrite IH].
Qed.

Lemma head_in_range (A : Type) (n : nat) (v : list A) :
  (n <= length v)%nat -> head n v = Ok (firstn n v).
Proof. intro H. unfold head. now rewrite (proj2 (Nat.leb_le _ _) H). Qed.

Lemma tail_in_range (A : Type) (n : nat) (v : list A) :
  (n <= length v)%nat -> tail n v = Ok (skipn (length v - n) v).
Proof. intro H. unfold tail. now rewrite (proj2 (Nat.leb_le _ _) H). Qed.

(** The connections of an operator on [N] sites give well-formed
    superoperator-connections whose indices are sites. *)
Lemma superop_conns_in_range (self : Lindbladian) (N : nat) (vrow vcol : list R) :
  Forall (conns_in_range N) (Hnh_dag_ self :: Hnh_ self :: jump_ops_ self) ->
  Forall (fun sc => well_formed_super sc
                    /\ Forall (site_in_range N) (tochange_row sc)
                    /\ Forall (site_in_range N) (tochange_col sc))
         (superop_conns self vrow vcol).
Proof.
  intro Hops. inversion Hops as [|? ? Hdag Hrest]; subst.
  inversion Hrest as [|? ? Hnh Hjump]; subst.
  unfold superop_conns. rewrite !Forall_app. repeat split.
  - unfold unitary_row_conns. apply Forall_map.
    eapply Forall_impl; [|apply (Hdag vrow)].
    intros c [Hwf Hin]; unfold well_formed_super; simpl. auto.
  - unfold unitary_col_conns. apply Forall_map.
    eapply Forall_impl; [|apply (Hnh vcol)].
    intros c [Hwf Hin]; unfold well_formed_super; simpl. auto.
  - apply Forall_flat_map. rewrite Forall_forall in Hjump |- *.
    intros op Hop. rewrite Forall_forall. intros x Hx.
    apply cross_conns_In in Hx. destruct Hx as (r & c & Hr & Hc & ->).
    pose proof (Hjump op Hop vrow) as Hrows.
    pose proof (Hjump op Hop vcol) as Hcols.
    rewrite Forall_forall in Hrows, Hcols.
    destruct (Hrows r Hr) as [Hwr Hir], (Hcols c Hc) as [Hwc Hic].
    unfold well_formed_super; simpl. auto.
Qed.

End AdapterFacts.

Section EnumeratorClaims.

Context {R C Op : Type}.
Context {scalars : ScalarOps R C}.
Context {operators : LocalOperatorOps R C Op}.

Local Abbreviation Conn := (ConnectorRef R C).
Local Abbreviation SuperConn := (ConnectorSuperopRef R C).
Local Abbreviation Lindbladian := (@LocalLindbladian Op).

(** C1. [ForEachConnSuperOp] hands to its callback, after the connections
    of the two unitary terms, for the jump operators in list order, one
    connection for every pair of a connection of the operator on [vrow] and
    a connection of the same operator on [vcol] (the pairs of [list_prod],
    row-major), and nothing else: the connection [cross_conn] of the pair
    has the scalar [conj(conn_row.mel) * conn_col.mel], the row-side change
    of [conn_row] and the column-side change of [conn_col].  With a single
    jump operator that has [r] connections on [vrow] and [c] on [vcol], the
    cross terms are the last [r * c] connections emitted; no pair mixes two
    operators. *)
Theorem cross_terms_outer_product (self : Lindbladian) (vrow vcol : list R) :
  let unitary :=
    (length (op_conns (Hnh_dag_ self) vrow)
     + length (op_conns (Hnh_ self) vcol))%nat in
  let pairs := fun op : Op =>
    map (fun p : Conn * Conn =>
           mkSuperConn (Cmul (Cconj (mel (fst p))) (mel (snd p)))
                       (tochange (fst p)) (newconf (fst p))
                       (tochange (snd p)) (newconf (snd p)))
        (list_prod (op_conns op vrow) (op_conns op vcol)) in
  (exists emitted : list SuperConn,
     ForEachConnSuperOp self vrow vcol record_cb [] = Ok emitted
     /\ skipn unitary emitted = flat_map pairs (jump_ops_ self)
     /\ length emitted
        = (unitary
           + list_sum (map (fun op => length (op_conns op vrow)
                                      * length (op_conns op vcol))
                           (jump_ops_ self)))%nat
     /\ (forall op : Op,
           jump_ops_ self = [op] ->
           skipn unitary emitted = pairs op
           /\ length (skipn unitary emitted)
              = (length (op_conns op vrow) * length (op_conns op vcol))%nat))
  /\ dissipative_term self vrow vcol record_cb []
     = Ok (flat_map pairs (jump_ops_ self))
  /\ (forall op : Op,
        length (pairs op)
        = (length (op_conns op vrow) * length (op_conns op vcol))%nat)
  /\ (forall (op : Op) (x : SuperConn),
        In x (pairs op) <->
        exists conn_row conn_col,
          In conn_row (op_conns op vrow) /\ In conn_col (op_conns op vcol) /\
          x = mkSuperConn (Cmul (Cconj (mel conn_row)) (mel conn_col))
                          (tochange conn_row) (newconf conn_row)
                          (tochange conn_col) (newconf conn_col)).
Proof.
  cbv zeta.
  change (fun op : Op =>
            map (fun p : Conn * Conn =>
                   mkSuperConn (Cmul (Cconj (mel (fst p))) (mel (snd p)))
                               (tochange (fst p)) (newconf (fst p))
                               (tochange (snd p)) (newconf (snd p)))
                (list_prod (op_conns op vrow) (op_conns op vcol)))
    with (cross_conns vrow vcol).
  assert (Hdrop : skipn (length (op_conns (Hnh_dag_ self) vrow)
                         + length (op_conns (Hnh_ self) vcol))
                        (superop_conns self vrow vcol)
                  = flat_map (cross_conns vrow vcol) (jump_ops_ self)).
  { unfold superop_conns. rewrite app_assoc.
    apply skipn_exact_length.
    unfold unitary_row_conns, unitary_col_conns.
    now rewrite length_app, !length_map. }
  split; [|split; [|split]].
  - exists (superop_conns self vrow vcol).
    split; [|split; [|split]].
    + rewrite ForEachConnSuperOp_fold, for_each_record. reflexivity.
    + exact Hdrop.
    + unfold superop_conns, unitary_row_conns, unitary_col_conns.
      rewrite !length_app, !length_map, flat_map_length_sum, Nat.add_assoc.
      do 2 f_equal. apply map_ext. intro op. apply cross_conns_length.
    + intros op Hone. rewrite Hdrop, Hone. simpl. rewrite app_nil_r.
      split; [reflexivity | apply cross_conns_length].
  - rewrite dissipative_term_fold, for_each_record. reflexivity.
  - apply cross_conns_length.
  - intros op x. apply cross_conns_In.
Qed.

(** C2. The unitary part of what [ForEachConnSuperOp] hands to its
    callback, for any [vrow] and [vcol]: first each connection of
    [Hnh_dag_] on [vrow] with its matrix element multiplied by [+i], as a
    row-side change with empty column-side lists; then each connection of
    [Hnh_] on [vcol] with its matrix element multiplied by [-i], as a
    column-side change with empty row-side lists; the cross terms of the
    jump operators follow. *)
Theorem unitary_terms_emitted (self : Lindbladian) (vrow vcol : list R) :
  let i := Cmake (Rlit 0) (Rlit 1) in
  let row_part :=
    map (fun c => mkSuperConn (Cmul i (mel c)) (tochange c) (newconf c) [] [])
        (op_conns (Hnh_dag_ self) vrow) in
  let col_part :=
    map (fun c => mkSuperConn (Cmul (Copp i) (mel c)) [] [] (tochange c) (newconf c))
        (op_conns (Hnh_ self) vcol) in
  ForEachConnSuperOp self vrow vcol record_cb []
  = Ok (row_part ++ col_part
        ++ flat_map (cross_conns vrow vcol) (jump_ops_ self))
  /\ (forall emitted : list SuperConn,
        ForEachConnSuperOp self vrow vcol record_cb [] = Ok emitted ->
        firstn (length (op_conns (Hnh_dag_ self) vrow)
                + length (op_conns (Hnh_ self) vcol)) emitted
        = row_part ++ col_part)
  /\ unitary_row_term self vrow record_cb [] = Ok row_part
  /\ unitary_col_term self vcol record_cb [] = Ok col_part.
Proof.
  cbv zeta.
  assert (Hrun : ForEachConnSuperOp self vrow vcol record_cb []
                 = Ok (superop_conns self vrow vcol))
    by (rewrite ForEachConnSuperOp_fold, for_each_record; reflexivity).
  split; [exact Hrun|]. split; [|split].
  - intros emitted Hemitted. rewrite Hrun in Hemitted.
    injection Hemitted as <-.
    unfold superop_conns, unitary_row_conns, unitary_col_conns.
    rewrite app_assoc. apply firstn_exact_length.
    now rewrite length_app, !length_map.
  - rewrite unitary_row_term_fold, for_each_record. reflexivity.
  - rewrite unitary_col_term_fold, for_each_record. reflexivity.
Qed.

(** C6. Order of the enumeration: the connections of the unitary row term,
    then those of the unitary column term, then the cross terms of the jump
    operators in list order, each operator row-major (for a row connection,
    all column connections before the next row connection).  Nothing is
    sorted, merged or dropped: the number of callback invocations is the
    sum of the numbers of connections of the sources.  [ForEachConn] and
    [FindConn] transform that sequence element by element, keeping the
    positions. *)
Theorem enumeration_order (self : Lindbladian) (vrow vcol v : list R)
  (out : @ConnOutputs R C) :
  let ordered :=
    fun vrow vcol =>
      unitary_row_conns self vrow ++ unitary_col_conns self vcol
      ++ flat_map (fun op => map cross_conn
                               (list_prod (op_conns op vrow) (op_conns op vcol)))
                  (jump_ops_ self) in
  ForEachConnSuperOp self vrow vcol record_cb [] = Ok (ordered vrow vcol)
  /\ length (ordered vrow vcol)
     = (length (op_conns (Hnh_dag_ self) vrow)
        + length (op_conns (Hnh_ self) vcol)
        + list_sum (map (fun op => length (op_conns op vrow) * length (op_conns op vcol))
                        (jump_ops_ self)))%nat
  /\ (forall (r : Conn) (rows cols : list Conn),
        map cross_conn (list_prod (r :: rows) cols)
        = map (fun c => cross_conn (r, c)) cols
          ++ map cross_conn (list_prod rows cols))
  /\ ForEachConn self v record_cb []
     = (vrow <- head (SizePhysical self) v ;;
        vcol <- tail (SizePhysical self) v ;;
        map_outcome (flat_connection (SizePhysical self)) (ordered vrow vcol))
  /\ FindConn self v out
     = (vrow <- head (SizePhysical self) v ;;
        vcol <- tail (SizePhysical self) v ;;
        outcome_map unzip_conns
          (map_outcome (flat_connection (SizePhysical self)) (ordered vrow vcol))).
Proof.
  cbv zeta. repeat split.
  - rewrite ForEachConnSuperOp_fold, for_each_record. reflexivity.
  - unfold unitary_row_conns, unitary_col_conns.
    rewrite !length_app, !length_map, flat_map_length_sum, Nat.add_assoc.
    do 2 f_equal. apply map_ext. intro op.
    now rewrite length_map, length_prod.
  - intros r rows cols. simpl. now rewrite map_app, map_map.
  - apply ForEachConn_record.
  - apply FindConn_fold.
Qed.

End EnumeratorClaims.

(* ===================================================================== *)
(** ** Callback and batch variants *)

Section AdapterClaims.

Context {R C Op : Type}.
Context {scalars : ScalarOps R C}.
Context {operators : LocalOperatorOps R C Op}.

Local Abbreviation Conn := (ConnectorRef R C).
Local Abbreviation SuperConn := (ConnectorSuperopRef R C).
Local Abbreviation Lindbladian := (@LocalLindbladian Op).
Local Abbreviation Outputs := (@ConnOutputs R C).

(** C4. The three outputs of [FindConn] are the three projections of the
    sequence of connections the callback of [ForEachConn] receives on the
    same configuration (so they have its length), and zipped element-wise
    they are that sequence; a failure of one is the same failure of the
    other. *)
Theorem FindConn_ForEachConn_equiv (self : Lindbladian) (v : list R) (out : Outputs) :
  FindConn self v out = outcome_map unzip_conns (ForEachConn self v record_cb [])
  /\ outcome_map zip_outputs (FindConn self v out) = ForEachConn self v record_cb [].
Proof.
  rewrite FindConn_fold, ForEachConn_record.
  split_configuration self v ltac:(now split).
  split; [reflexivity|].
  rewrite outcome_map_map.
  destruct (map_outcome _ _) as [cs|e]; simpl; [|reflexivity].
  now rewrite zip_unzip_conns.
Qed.

(** The callback variant completes on every configuration of at least [N]
    entries when the operators act on [N] sites. *)
Lemma ForEachConn_completes (self : Lindbladian) (v : list R) :
  (SizePhysical self <= length v)%nat ->
  Forall (conns_in_range (SizePhysical self))
         (Hnh_dag_ self :: Hnh_ self :: jump_ops_ self) ->
  ForEachConn self v record_cb []
  = Ok (map (flat_conn (SizePhysical self))
            (superop_conns self (firstn (SizePhysical self) v)
                           (skipn (length v - SizePhysical self) v))).
Proof.
  intros Hlen Hops.
  rewrite ForEachConn_record, head_in_range, tail_in_range by assumption.
  simpl. apply map_outcome_total. intros sc Hsc.
  apply flat_connection_well_formed.
  assert (Hall := @superop_conns_in_range _ _ _ _ _ self (SizePhysical self)
                    (firstn (SizePhysical self) v)
                    (skipn (length v - SizePhysical self) v) Hops).
  rewrite Forall_forall in Hall. now apply Hall in Hsc.
Qed.

(** C5. With operators on [N] sites, the connection handed to the caller's
    callback for a superoperator-connection has as indices the row-side
    indices followed by the column-side indices plus [N], and as values the
    row-side values followed by the column-side values.  In it an index
    [>= N] is [N + j] for a column-side index [j], and an index [< N] is a
    row-side index. *)
Theorem flat_connection_layout (self : Lindbladian) (v : list R) :
  let N := SizePhysical self in
  let emitted := superop_conns self (firstn N v) (skipn (length v - N) v) in
  (N <= length v)%nat ->
  Forall (conns_in_range N) (Hnh_dag_ self :: Hnh_ self :: jump_ops_ self) ->
  ForEachConn self v record_cb []
  = Ok (map (fun sc =>
               mkConn (sup_mel sc)
                      (tochange_row sc
                       ++ map (fun j => (j + Z.of_nat N)%Z) (tochange_col sc))
                      (newconf_row sc ++ newconf_col sc))
            emitted)
  /\ Forall (fun sc =>
       forall i, In i (tochange (flat_conn N sc)) ->
         ((Z.of_nat N <= i)%Z ->
            exists j, In j (tochange_col sc) /\ i = (Z.of_nat N + j)%Z)
         /\ ((i < Z.of_nat N)%Z -> In i (tochange_row sc)))
       emitted.
Proof.
  cbv zeta. intros Hlen Hops. split.
  - now apply ForEachConn_completes.
  - eapply Forall_impl;
      [|eapply superop_conns_in_range, Hops].
    intros sc (_ & Hrow & Hcol) i Hi. simpl in Hi.
    rewrite Forall_forall in Hrow, Hcol.
    apply in_app_or in Hi. destruct Hi as [Hi|Hi].
    + split; [|now intros _].
      intro Hge. apply Hrow in Hi. unfold site_in_range in Hi. lia.
    + apply in_map_iff in Hi. destruct Hi as (j & <- & Hj).
      split.
      * intros _. exists j. split; [assumption | lia].
      * intro Hlt. apply Hcol in Hj. unfold site_in_range in Hj. lia.
Qed.

(** C7 (as the code has it). Neither variant checks the length of the
    configuration: on every input of at least [N] entries, of length [2N]
    or not, the enumeration runs on the first [N] and the last [N] entries,
    and the only failures are those of the callback or of a connection
    whose lists do not fit its buffers. *)
Theorem no_length_check (S : Type) (self : Lindbladian) (v : list R)
  (callback : Callback Conn S) (s : S) (out : Outputs) :
  let N := SizePhysical self in
  let emitted := superop_conns self (firstn N v) (skipn (length v - N) v) in
  (N <= length v)%nat ->
  ForEachConn self v callback s
  = for_each (fun conn s' => c <- flat_connection N conn ;; callback c s') emitted s
  /\ FindConn self v out
     = outcome_map unzip_conns (map_outcome (flat_connection N) emitted).
Proof.
  cbv zeta. intro Hlen. split.
  - rewrite ForEachConn_fold, head_in_range, tail_in_range by assumption.
    reflexivity.
  - rewrite FindConn_fold, head_in_range, tail_in_range by assumption.
    reflexivity.
Qed.

(** C10. [FindConn] empties the three containers first: its result does
    not depend on what they held, and is made of the connections of this
    call only.  (The pushes themselves append: started on non-empty
    containers they would keep the earlier entries in front.) *)
Theorem FindConn_clears_outputs (self : Lindbladian) (v : list R) (out out' : Outputs) :
  FindConn self v out = FindConn self v out'
  /\ FindConn self v out
     = (vrow <- head (SizePhysical self) v ;;
        vcol <- tail (SizePhysical self) v ;;
        outcome_map (fun cs => mkOutputs (map (@mel R C) cs)
                                         (map (@tochange R C) cs)
                                         (map (@newconf R C) cs))
          (map_outcome (flat_connection (SizePhysical self))
                       (superop_conns self vrow vcol)))
  /\ (forall (cs : list SuperConn),
        for_each (fun conn o => c <- flat_connection (SizePhysical self) conn ;;
                                Ok (push_conn c o)) cs out
        = outcome_map (fun fs => mkOutputs (out_mel out ++ map (@mel R C) fs)
                                           (out_connectors out ++ map (@tochange R C) fs)
                                           (out_newconfs out ++ map (@newconf R C) fs))
            (map_outcome (flat_connection (SizePhysical self)) cs)).
Proof.
  split; [|split].
  - now rewrite !FindConn_fold.
  - apply FindConn_fold.
  - intro cs. rewrite collect_through.
    apply outcome_map_ext. intro fs. apply push_conns_append.
Qed.

End AdapterClaims.

(* ===================================================================== *)
(** ** The effective Hamiltonian *)

Section EffectiveHamiltonian.

Context {R C Op : Type}.
Context {scalars : ScalarOps R C}.
Context {operators : LocalOperatorOps R C Op}.

Local Abbreviation Lindbladian := (@LocalLindbladian Op).

Lemma reachable_derived (self : Lindbladian) :
  reachable self ->
  Hnh_ self
  = fold_left (fun acc L => op_add acc (dissipator_term L))
              (jump_ops_ self) (H_ self)
  /\ Hnh_dag_ self = Transpose (Conjugate (Hnh_ self)).
Proof. intros [H | op prev _]; split; reflexivity. Qed.

Lemma reachable_reinit (self : Lindbladian) (stale_Hnh stale_dag : Op) :
  reachable self ->
  Init (mkLindbladian (H_ self) (jump_ops_ self) stale_Hnh stale_dag
                      (SizePhysical self)) = self.
Proof. intros [H | op prev _]; reflexivity. Qed.


Lemma AddJumpOperators_members (ops : list Op) (self : Lindbladian) :
  H_ (AddJumpOperators ops self) = H_ self
  /\ jump_ops_ (AddJumpOperators ops self) = jump_ops_ self ++ ops
  /\ SizePhysical (AddJumpOperators ops self) = SizePhysical self.
Proof.
  revert self; induction ops as [|op ops IH]; intro self; simpl.
  - now rewrite app_nil_r.
  - destruct (IH (AddJumpOperator op self)) as (E1 & E2 & E3).
    rewrite E1, E2, E3. simpl. now rewrite <- app_assoc.
Qed.

(** The loop of [Init] computes the effective Hamiltonian when conjugation
    and transposition commute. *)
Lemma Init_loop_effective_hamiltonian (H : Op) (ops : list Op) :
  (forall X : Op, Conjugate (Transpose X) = Transpose (Conjugate X)) ->
  fold_left (fun acc L => op_add acc (dissipator_term L)) ops H
  = effective_hamiltonian H ops.
Proof.
  intro Hct. unfold effective_hamiltonian.
  revert H; induction ops as [|L ops IH]; intro H; simpl.
  - reflexivity.
  - rewrite IH. unfold dissipator_term. now rewrite Hct.
Qed.


(** C3. In every state an object can be in (constructed, then any number
    of [AddJumpOperator] calls), [Hnh_] is [H + sum_k (-i/2)
    conjugate(transpose(L_k)) L_k] over the current list and [Hnh_dag_] is
    [conjugate(transpose(Hnh_))]; the pair is a function of [H_] and the
    list alone: recomputing from any stale pair gives the same state.
    The code applies [Conjugate] before [Transpose]; the two orders are
    assumed to agree. *)
Theorem effective_hamiltonian_invariant
  (Hct : forall X : Op, Conjugate (Transpose X) = Transpose (Conjugate X))
  (self : Lindbladian) :
  reachable self ->
  Hnh_ self = effective_hamiltonian (H_ self) (jump_ops_ self)
  /\ Hnh_dag_ self = Conjugate (Transpose (Hnh_ self))
  /\ (forall (stale_Hnh stale_dag : Op),
        Init (mkLindbladian (H_ self) (jump_ops_ self) stale_Hnh stale_dag
                            (SizePhysical self)) = self)
  /\ (forall (op stale_Hnh stale_dag : Op),
        AddJumpOperator op self
        = Init (mkLindbladian (H_ self) (jump_ops_ self ++ [op])
                              stale_Hnh stale_dag (SizePhysical self))
        /\ Hnh_ (AddJumpOperator op self)
           = effective_hamiltonian (H_ self) (jump_ops_ self ++ [op])
        /\ Hnh_dag_ (AddJumpOperator op self)
           = Conjugate (Transpose (Hnh_ (AddJumpOperator op self)))).
Proof.
  intro Hr. destruct (reachable_derived Hr) as [Ehnh Edag].
  split; [|split; [|split]].
  - rewrite Ehnh. now apply Init_loop_effective_hamiltonian.
  - now rewrite Hct.
  - intros s1 s2. now apply reachable_reinit.
  - intros op s1 s2. split; [reflexivity|]. split.
    + simpl. now apply Init_loop_effective_hamiltonian.
    + simpl. now rewrite Hct.
Qed.

(** C8. With an empty jump-operator list the enumeration is the two
    unitary terms and nothing else, and [Hnh_] is [H_]. *)
Theorem closed_system_reduction (self : Lindbladian) (vrow vcol : list R) :
  reachable self ->
  jump_ops_ self = [] ->
  let i := Cmake (Rlit 0) (Rlit 1) in
  ForEachConnSuperOp self vrow vcol record_cb []
  = Ok (map (fun c => mkSuperConn (Cmul i (mel c)) (tochange c) (newconf c) [] [])
            (op_conns (Hnh_dag_ self) vrow)
        ++ map (fun c => mkSuperConn (Cmul (Copp i) (mel c)) [] [] (tochange c) (newconf c))
               (op_conns (Hnh_ self) vcol))
  /\ Hnh_ self = H_ self
  /\ Hnh_dag_ self = Transpose (Conjugate (H_ self)).
Proof.
  intros Hr Hempty. cbv zeta.
  destruct (reachable_derived Hr) as [Ehnh Edag].
  rewrite Hempty in Ehnh. simpl in Ehnh.
  split; [|split].
  - rewrite ForEachConnSuperOp_fold, for_each_record.
    unfold superop_conns. rewrite Hempty. simpl. now rewrite app_nil_r.
  - exact Ehnh.
  - now rewrite Edag, Ehnh.
Qed.


End EffectiveHamiltonian.

(* ===================================================================== *)
(** ** The one-site instance: laws and runs *)







(** The laws of the operator interface that the instance satisfies. *)
Lemma one_site_conj_transpose (a : OneSite.Mat2) :
  Conjugate (Transpose a) = Transpose (Conjugate a).
Proof. reflexivity. Qed.



(** Every one-site operator changes site [0] at most, with one value. *)
Lemma Mconns_in_range (a : OneSite.Mat2) : conns_in_range 1 a.
Proof.
  intros [|x [|y v]]; simpl; try constructor.
  destruct (Qeq_bool x 0);
    repeat match goal with
           | |- context [if ?b then _ else _] => destruct b
           end;
    simpl; repeat constructor; unfold site_in_range; simpl; lia.
Qed.

(** The effective Hamiltonian of the lowering operator alone is
    [-(i/2) |1><1|]. *)
Example Hnh_of_lowering :
  Hnh_ (AddJumpOperator OneSite.lower (new_LocalLindbladian OneSite.Mzero))
  = OneSite.mkMat2 OneSite.Gzero OneSite.Gzero OneSite.Gzero
                   (OneSite.mkGauss 0 (-1 # 2)).
Proof. reflexivity. Qed.

(** One flip channel on the doubled configuration [[0; 0]]: the diagonal
    connection of the unitary row term, the diagonal connection of the
    unitary column term (equal, and both kept), then the cross term. *)
Example damped_run :
  ForEachConn OneSite.damped [0; 0]%Q record_cb []
  = Ok [ mkConn (OneSite.mkGauss (-1 # 2) 0) [] [];
         mkConn (OneSite.mkGauss (-1 # 2) 0) [] [];
         mkConn (OneSite.mkGauss 1 0) [0; 1]%Z [1; 1]%Q ].
Proof. reflexivity. Qed.

(** The invariant of C3 on the system with Hamiltonian [flip] and the
    lowering operator as its jump operator. *)
Lemma effective_hamiltonian_invariant_witness :
  reachable OneSite.decaying
  /\ Hnh_ OneSite.decaying
     = effective_hamiltonian (H_ OneSite.decaying) (jump_ops_ OneSite.decaying)
  /\ Hnh_dag_ OneSite.decaying = Conjugate (Transpose (Hnh_ OneSite.decaying)).
Proof.
  assert (Hr : reachable OneSite.decaying)
    by (apply reachable_add, reachable_new).
  split; [exact Hr|].
  destruct (effective_hamiltonian_invariant one_site_conj_transpose Hr) as (E1 & E2 & _).
  split; [exact E1 | exact E2].
Defined.

(** The layout of C5 on the doubled configuration [[0; 0]] of the system
    with one flip channel: the cross term changes site [0] of the row and
    site [0] of the column, emitted as sites [0] and [1]. *)
Lemma flat_connection_layout_witness :
  (SizePhysical OneSite.damped <= length [0; 0]%Q)%nat
  /\ Forall (conns_in_range (SizePhysical OneSite.damped))
            (Hnh_dag_ OneSite.damped :: Hnh_ OneSite.damped
             :: jump_ops_ OneSite.damped)
  /\ ForEachConn OneSite.damped [0; 0]%Q record_cb []
     = Ok [ mkConn (OneSite.mkGauss (-1 # 2) 0) [] [];
            mkConn (OneSite.mkGauss (-1 # 2) 0) [] [];
            mkConn (OneSite.mkGauss 1 0) [0; 1]%Z [1; 1]%Q ]
  /\ Forall (fun sc =>
       forall i, In i (tochange (flat_conn 1 sc)) ->
         ((1 <= i)%Z -> exists j, In j (tochange_col sc) /\ i = (1 + j)%Z)
         /\ ((i < 1)%Z -> In i (tochange_row sc)))
       (superop_conns OneSite.damped [0]%Q [0]%Q).
Proof.
  assert (Hlen : (SizePhysical OneSite.damped <= length [0; 0]%Q)%nat)
    by (vm_compute; lia).
  assert (Hops : Forall (conns_in_range (SizePhysical OneSite.damped))
                        (Hnh_dag_ OneSite.damped :: Hnh_ OneSite.damped
                         :: jump_ops_ OneSite.damped))
    by (repeat constructor; apply Mconns_in_range).
  split; [exact Hlen|]. split; [exact Hops|].
  exact (flat_connection_layout OneSite.damped [0; 0]%Q Hlen Hops).
Defined.

(** C7, refuted as stated: a configuration of three entries for a one-site
    system (length [3], not [2]) is enumerated like any other; the callback
    is invoked three times and the batch variant fills its outputs. *)
Lemma length_check_counterexample :
  length [0; 0; 0]%Q <> (2 * SizePhysical OneSite.damped)%nat
  /\ ForEachConn OneSite.damped [0; 0; 0]%Q record_cb []
     = Ok [ mkConn (OneSite.mkGauss (-1 # 2) 0) [] [];
            mkConn (OneSite.mkGauss (-1 # 2) 0) [] [];
            mkConn (OneSite.mkGauss 1 0) [0; 1]%Z [1; 1]%Q ]
  /\ FindConn OneSite.damped [0; 0; 0]%Q (mkOutputs [] [] [])
     = Ok (mkOutputs [ OneSite.mkGauss (-1 # 2) 0; OneSite.mkGauss (-1 # 2) 0;
                       OneSite.mkGauss 1 0 ]
                     [ []; []; [0; 1]%Z ]
                     [ []; []; [1; 1]%Q ]).
Proof.
  split; [vm_compute; discriminate | split; reflexivity].
Qed.

(** The amended C7 on that configuration of three entries. *)
Lemma no_length_check_witness :
  (SizePhysical OneSite.damped <= length [0; 0; 0]%Q)%nat
  /\ ForEachConn OneSite.damped [0; 0; 0]%Q record_cb []
     = for_each (fun conn s' => c <- flat_connection 1 conn ;; record_cb c s')
                (superop_conns OneSite.damped [0]%Q [0]%Q) []
  /\ FindConn OneSite.damped [0; 0; 0]%Q (mkOutputs [] [] [])
     = outcome_map unzip_conns
         (map_outcome (flat_connection 1)
                      (superop_conns OneSite.damped [0]%Q [0]%Q)).
Proof.
  assert (Hlen : (SizePhysical OneSite.damped <= length [0; 0; 0]%Q)%nat)
    by (vm_compute; lia).
  split; [exact Hlen|].
  exact (no_length_check OneSite.damped [0; 0; 0]%Q record_cb []
                         (mkOutputs [] [] []) Hlen).
Defined.

(** C8 on the closed system with Hamiltonian [flip], row configuration
    [[0]] and column configuration [[1]]. *)
Lemma closed_system_reduction_witness :
  reachable OneSite.closed_flip
  /\ jump_ops_ OneSite.closed_flip = []
  /\ ForEachConnSuperOp OneSite.closed_flip [0]%Q [1]%Q record_cb []
     = Ok [ mkSuperConn (OneSite.mkGauss 0 1) [0%Z] [1%Q] [] [];
            mkSuperConn (OneSite.mkGauss 0 (-1)) [] [] [0%Z] [0%Q] ]
  /\ Hnh_ OneSite.closed_flip = OneSite.flip.
Proof.
  assert (Hr : reachable OneSite.closed_flip) by apply reachable_new.
  assert (He : jump_ops_ OneSite.closed_flip = []) by reflexivity.
  split; [exact Hr|]. split; [exact He|].
  destruct (closed_system_reduction [0]%Q [1]%Q Hr He) as (E1 & E2 & _).
  split; [exact E1 | exact E2].
Defined.



(* ===================================================================== *)
(** ** The fully connected layer: parameters *)

Section SliceFacts.

Context {A : Type}.

Lemma slice_length (k n : nat) (l : list A) :
  (k + n <= length l)%nat -> length (slice k n l) = n.
Proof.
  intro H. unfold slice. rewrite length_firstn, length_skipn. lia.
Qed.

(** A list is what precedes a slice, the slice, and what follows it. *)
Lemma slice_split (k n : nat) (l : list A) :
  l = firstn k l ++ slice k n l ++ skipn (k + n) l.
Proof.
  unfold slice.
  rewrite <- (firstn_skipn k l) at 1. f_equal.
  rewrite <- (firstn_skipn n (skipn k l)) at 1. f_equal.
  rewrite skipn_skipn. f_equal. lia.
Qed.

Lemma firstn_plus (n m : nat) (l : list A) :
  firstn (n + m) l = firstn n l ++ firstn m (skipn n l).
Proof.
  revert l; induction n as [|n IH]; intros [|x l]; simpl;
    rewrite ?firstn_nil; try reflexivity.
  f_equal. apply IH.
Qed.

Lemma slice_adjacent (k n m : nat) (l : list A) :
  slice k n l ++ slice (k + n) m l = slice k (n + m) l.
Proof.
  unfold slice. rewrite firstn_plus, skipn_skipn.
  do 3 f_equal. lia.
Qed.

(** The slice written by an overwrite is what was written. *)
Lemma slice_of_overwrite (pre mid post : list A) :
  slice (length pre) (length mid) (pre ++ mid ++ post) = mid.
Proof.
  unfold slice.
  rewrite skipn_app, skipn_all, Nat.sub_diag. simpl.
  rewrite firstn_app, firstn_all, Nat.sub_diag. simpl.
  apply app_nil_r.
Qed.

Lemma slice_all (l : list A) : slice 0 (length l) l = l.
Proof. unfold slice. simpl. apply firstn_all. Qed.

(** [memcpy] of a whole number of cells: inside both buffers it overwrites
    a slice by a slice; outside one of them it fails. *)
Lemma memcpy_spec (sz : nat) (dst : list A) (doff : nat) (src : list A)
  (soff n : nat) :
  (0 < sz)%nat ->
  memcpy sz dst doff src soff (n * sz)
  = if ((soff + n <=? length src) && (doff + n <=? length dst))%nat
    then Ok (firstn doff dst ++ slice soff n src ++ skipn (doff + n) dst)
    else Fail OutOfRange.
Proof.
  intro Hsz. unfold memcpy, slice.
  rewrite Nat.div_mul, Nat.Div0.mod_mul by lia.
  now rewrite (proj2 (Nat.ltb_lt _ _) Hsz).
Qed.

Lemma memcpy_in_range (sz : nat) (dst : list A) (doff : nat) (src : list A)
  (soff n : nat) :
  (0 < sz)%nat ->
  (soff + n <= length src)%nat ->
  (doff + n <= length dst)%nat ->
  memcpy sz dst doff src soff (n * sz)
  = Ok (firstn doff dst ++ slice soff n src ++ skipn (doff + n) dst).
Proof.
  intros Hsz Hs Hd. rewrite memcpy_spec by assumption.
  now rewrite (proj2 (Nat.leb_le _ _) Hs), (proj2 (Nat.leb_le _ _) Hd).
Qed.

Lemma memcpy_dst_short (sz : nat) (dst : list A) (doff : nat) (src : list A)
  (soff n : nat) :
  (0 < sz)%nat ->
  (length dst < doff + n)%nat ->
  memcpy sz dst doff src soff (n * sz) = Fail OutOfRange.
Proof.
  intros Hsz Hd. rewrite memcpy_spec by assumption.
  rewrite (proj2 (Nat.leb_gt _ _) Hd). now rewrite andb_false_r.
Qed.

Lemma memcpy_src_short (sz : nat) (dst : list A) (doff : nat) (src : list A)
  (soff n : nat) :
  (0 < sz)%nat ->
  (length src < soff + n)%nat ->
  memcpy sz dst doff src soff (n * sz) = Fail OutOfRange.
Proof.
  intros Hsz Hs. rewrite memcpy_spec by assumption.
  now rewrite (proj2 (Nat.leb_gt _ _) Hs).
Qed.

Lemma firstn_exact (a b : list A) (n : nat) :
  n = length a -> firstn n (a ++ b) = a.
Proof.
  intros ->. rewrite firstn_app, firstn_all, Nat.sub_diag. simpl.
  apply app_nil_r.
Qed.

Lemma skipn_exact (a b : list A) (n : nat) :
  n = length a -> skipn n (a ++ b) = b.
Proof.
  intros ->. now rewrite skipn_app, skipn_all, Nat.sub_diag.
Qed.

(** Two adjacent overwrites are one overwrite by the concatenation. *)
Lemma overwrite_adjacent (k : nat) (a b l : list A) :
  (k + length a + length b <= length l)%nat ->
  let l1 := firstn k l ++ a ++ skipn (k + length a) l in
  firstn (k + length a) l1 ++ b ++ skipn (k + length a + length b) l1
  = firstn k l ++ (a ++ b) ++ skipn (k + (length a + length b)) l.
Proof.
  intro H. cbv zeta.
  assert (Hk : length (firstn k l) = k) by (rewrite length_firstn; lia).
  rewrite (app_assoc (firstn k l) a).
  rewrite (firstn_exact (firstn k l ++ a)) by (rewrite length_app; lia).
  replace (k + length a + length b)%nat
    with (length b + length (firstn k l ++ a))%nat
    by (rewrite length_app; lia).
  rewrite <- skipn_skipn.
  rewrite (skipn_exact (firstn k l ++ a)) by reflexivity.
  rewrite skipn_skipn, <- !app_assoc.
  do 3 f_equal. f_equal. lia.
Qed.

Lemma overwrite_length (k : nat) (a l : list A) :
  (k + length a <= length l)%nat ->
  length (firstn k l ++ a ++ skipn (k + length a) l) = length l.
Proof.
  intro H. rewrite !length_app, length_firstn, length_skipn. lia.
Qed.

Lemma nth_in_window (k p : nat) (l mid post : list A) (d : A) :
  (k <= length l)%nat -> (p < length mid)%nat ->
  nth (k + p) (firstn k l ++ mid ++ post) d = nth p mid d.
Proof.
  intros Hk Hp.
  rewrite app_nth2 by (rewrite length_firstn; lia).
  rewrite length_firstn, Nat.min_l by lia.
  replace (k + p - k)%nat with p by lia.
  now rewrite app_nth1.
Qed.

(** An overwritten window: the length and the cells outside it are kept,
    the window is what was written. *)
Lemma window_frame (k : nat) (l mid : list A) :
  (k + length mid <= length l)%nat ->
  let l' := firstn k l ++ mid ++ skipn (k + length mid) l in
  length l' = length l
  /\ firstn k l' = firstn k l
  /\ skipn (k + length mid) l' = skipn (k + length mid) l
  /\ slice k (length mid) l' = mid.
Proof.
  intro H. cbv zeta.
  assert (Hk : length (firstn k l) = k) by (rewrite length_firstn; lia).
  repeat split.
  - apply overwrite_length. lia.
  - apply firstn_exact. now rewrite Hk.
  - rewrite app_assoc.
    apply skipn_exact. rewrite length_app, Hk. reflexivity.
  - rewrite <- Hk at 1. apply slice_of_overwrite.
Qed.

Lemma slice_whole (n : nat) (l : list A) : n = length l -> slice 0 n l = l.
Proof. intros ->. apply slice_all. Qed.

End SliceFacts.

Section ParameterFacts.

Context {T : Type} {arith : LayerScalar T}.

Local Abbreviation Layer := (@FullyConnected T).

Lemma scalar_bytesize_positive : (0 < scalar_bytesize_)%nat.
Proof. unfold scalar_bytesize_, sizeof_complex_double. lia. Qed.

Lemma GetParameters_sized (sizeof_T : nat) (self : Layer) (pars : list T)
  (k : nat) :
  sizeof_T = scalar_bytesize_ ->
  layer_sized self ->
  GetParameters sizeof_T self pars k
  = if (k + npar_ self <=? length pars)%nat
    then Ok (firstn k pars ++ parameters self ++ skipn (k + npar_ self) pars)
    else Fail OutOfRange.
Proof.
  intros ->. pose proof scalar_bytesize_positive as Hpos.
  destruct self as [ub n m np w b]. unfold layer_sized, GetParameters, parameters.
  cbn [usebias_ in_size_ out_size_ npar_ weight_ bias_].
  intros (Hw & Hb & ->). rewrite <- Hw. clear Hw. rewrite <- Hb. clear Hb.
  destruct ub.
  - destruct (Nat.le_gt_cases (k + length b) (length pars)) as [Hin|Hout].
    + rewrite memcpy_in_range by (simpl; lia). cbn [bind]. rewrite slice_all.
      destruct (Nat.le_gt_cases (k + (length b + length w)) (length pars))
        as [Hin2|Hout2].
      * rewrite memcpy_in_range
          by (rewrite ?overwrite_length; simpl; lia).
        rewrite (proj2 (Nat.leb_le _ _) Hin2), slice_all.
        f_equal. rewrite overwrite_adjacent by lia. reflexivity.
      * rewrite memcpy_dst_short
          by (rewrite ?overwrite_length; simpl; lia).
        now rewrite (proj2 (Nat.leb_gt _ _) Hout2).
    + rewrite memcpy_dst_short by (simpl; lia). cbn [bind].
      rewrite (proj2 (Nat.leb_gt _ _)); [reflexivity | lia].
  - cbn [app].
    destruct (Nat.le_gt_cases (k + length w) (length pars)) as [Hin|Hout].
    + rewrite memcpy_in_range by (simpl; lia).
      rewrite (proj2 (Nat.leb_le _ _)) by (simpl; lia).
      now rewrite slice_all.
    + rewrite memcpy_dst_short by (simpl; lia).
      rewrite (proj2 (Nat.leb_gt _ _)) by (simpl; lia). reflexivity.
Qed.

Lemma SetParameters_sized (sizeof_T : nat) (self : Layer) (pars : list T)
  (k : nat) :
  sizeof_T = scalar_bytesize_ ->
  layer_sized self ->
  SetParameters sizeof_T self pars k
  = if (k + npar_ self <=? length pars)%nat
    then Ok (mkLayer (usebias_ self) (in_size_ self) (out_size_ self) (npar_ self)
               (slice (k + (if usebias_ self then out_size_ self else 0))
                      (in_size_ self * out_size_ self) pars)
               (if usebias_ self then slice k (out_size_ self) pars
                else bias_ self))
    else Fail OutOfRange.
Proof.
  intros ->. pose proof scalar_bytesize_positive as Hpos.
  destruct self as [ub n m np w b]. unfold layer_sized, SetParameters.
  cbn [usebias_ in_size_ out_size_ npar_ weight_ bias_].
  intros (Hw & Hb & ->).
  destruct ub.
  - destruct (Nat.le_gt_cases (k + m) (length pars)) as [Hin|Hout].
    + rewrite memcpy_in_range by (simpl; lia). cbn [bind].
      destruct (Nat.le_gt_cases (k + (m + n * m)) (length pars)) as [Hin2|Hout2].
      * rewrite memcpy_in_range by (simpl; lia). cbn [bind].
        rewrite (proj2 (Nat.leb_le _ _) Hin2).
        simpl. rewrite !skipn_all2, !app_nil_r by lia. reflexivity.
      * rewrite memcpy_src_short by lia. cbn [bind].
        now rewrite (proj2 (Nat.leb_gt _ _) Hout2).
    + rewrite memcpy_src_short by lia. cbn [bind].
      rewrite (proj2 (Nat.leb_gt _ _)); [reflexivity | lia].
  - destruct (Nat.le_gt_cases (k + n * m) (length pars)) as [Hin|Hout].
    + rewrite memcpy_in_range by (simpl; lia). cbn [bind].
      rewrite (proj2 (Nat.leb_le _ _)) by (simpl; lia).
      simpl. rewrite !skipn_all2, !app_nil_r, Nat.add_0_r by lia. reflexivity.
    + rewrite memcpy_src_short by lia. cbn [bind].
      rewrite (proj2 (Nat.leb_gt _ _)) by (simpl; lia). reflexivity.
Qed.

Lemma parameters_length (self : Layer) :
  layer_sized self -> length (parameters self) = npar_ self.
Proof.
  intros (Hw & Hb & Hn). unfold parameters.
  rewrite length_app, Hw, Hn. destruct (usebias_ self); simpl; lia.
Qed.

Lemma parameters_of_slices (ub : bool) (n m np k : nat) (b pars : list T) :
  (k + ((if ub then m else 0) + n * m) <= length pars)%nat ->
  parameters (mkLayer ub n m np (slice (k + (if ub then m else 0)) (n * m) pars)
                      (if ub then slice k m pars else b))
  = slice k ((if ub then m else 0) + n * m) pars.
Proof.
  intro H. unfold parameters; simpl. destruct ub.
  - apply slice_adjacent.
  - simpl. now rewrite Nat.add_0_r.
Qed.

(** The members after [Init]. *)
Lemma layer_Init_sized (raw_weight raw_bias : nat -> T) (use_bias : bool)
  (input_size output_size : nat) :
  let self := layer_Init raw_weight raw_bias use_bias input_size output_size in
  layer_sized self
  /\ Ninput self = input_size
  /\ Noutput self = output_size
  /\ Npar self = length (parameters self)
  /\ Npar self = (input_size * output_size
                  + (if use_bias then output_size else 0))%nat
  /\ (if use_bias then True else bias_ self = repeat T0 output_size).
Proof.
  cbv zeta.
  assert (Hs : layer_sized
                 (layer_Init raw_weight raw_bias use_bias input_size output_size)).
  { unfold layer_sized, layer_Init; simpl.
    rewrite length_map, length_seq.
    destruct use_bias; simpl;
      rewrite ?length_map, ?length_seq, ?repeat_length; repeat split; lia. }
  split; [exact Hs|]. repeat split.
  - unfold Npar. now rewrite parameters_length.
  - unfold Npar, layer_Init; simpl. destruct use_bias; lia.
  - destruct use_bias; reflexivity.
Qed.

(** X2. For a scalar type of the size of [std::complex<double>], on a
    layer with the sizes of [Init] and offsets that fit in an [int]:
    [GetParameters] succeeds exactly when the window of [Npar] cells from
    [start_idx] lies inside the vector; it then overwrites that window with
    the bias (when the layer has one) followed by the weights, and leaves
    the length and every other cell as they were. *)
Theorem GetParameters_window (sizeof_T : nat) (self : Layer) (pars : list T)
  (start_idx : nat) :
  sizeof_T = scalar_bytesize_ ->
  layer_sized self ->
  int_range (Z.of_nat (start_idx + Npar self)) ->
  match GetParameters sizeof_T self pars start_idx with
  | Ok pars' =>
      (start_idx + Npar self <= length pars)%nat
      /\ length pars' = length pars
      /\ firstn start_idx pars' = firstn start_idx pars
      /\ slice start_idx (Npar self) pars'
         = (if usebias_ self then bias_ self else []) ++ weight_ self
      /\ skipn (start_idx + Npar self) pars' = skipn (start_idx + Npar self) pars
  | Fail e => e = OutOfRange /\ (length pars < start_idx + Npar self)%nat
  end.
Proof.
  intros Hsize Hs _. rewrite GetParameters_sized by assumption. unfold Npar.
  destruct (Nat.leb_spec (start_idx + npar_ self) (length pars)) as [Hin|Hout].
  - split; [assumption|].
    rewrite <- (parameters_length Hs) in *.
    destruct (window_frame start_idx pars (parameters self) Hin)
      as (E1 & E2 & E3 & E4).
    repeat split; assumption.
  - split; [reflexivity | assumption].
Qed.

(** What [SetParameters] does on a layer with the sizes of [Init]. *)
Lemma SetParameters_result (sizeof_T : nat) (self : Layer) (pars : list T)
  (start_idx : nat) :
  sizeof_T = scalar_bytesize_ ->
  layer_sized self ->
  match SetParameters sizeof_T self pars start_idx with
  | Ok self' =>
      (start_idx + Npar self <= length pars)%nat
      /\ parameters self' = slice start_idx (Npar self) pars
      /\ layer_sized self'
      /\ usebias_ self' = usebias_ self
      /\ in_size_ self' = in_size_ self
      /\ out_size_ self' = out_size_ self
      /\ npar_ self' = npar_ self
      /\ (if usebias_ self then True else bias_ self' = bias_ self)
  | Fail e => e = OutOfRange /\ (length pars < start_idx + Npar self)%nat
  end.
Proof.
  intros Hsize Hs. rewrite SetParameters_sized by assumption. unfold Npar.
  destruct Hs as (Hw & Hb & Hn).
  destruct (Nat.leb_spec (start_idx + npar_ self) (length pars)) as [Hin|Hout].
  - split; [assumption|]. split.
    + rewrite Hn. apply parameters_of_slices. lia.
    + unfold layer_sized; simpl.
      repeat split; try assumption.
      * apply slice_length. destruct (usebias_ self); lia.
      * destruct (usebias_ self); [apply slice_length; lia | assumption].
      * destruct (usebias_ self); reflexivity.
  - split; [reflexivity | assumption].
Qed.

(** X3. For a scalar type of the size of [std::complex<double>], on a
    layer with the sizes of [Init] and offsets that fit in an [int]:
    [SetParameters] succeeds exactly when the window of [Npar] cells from
    [start_idx] lies inside the vector.  The bias (when the layer has one)
    is then the first [out_size_] cells of the window and the weights are
    the cells that follow; the sizes are kept, and a layer without bias
    keeps its bias vector untouched. *)
Theorem SetParameters_loads_window (sizeof_T : nat) (self : Layer)
  (pars : list T) (start_idx : nat) :
  sizeof_T = scalar_bytesize_ ->
  layer_sized self ->
  int_range (Z.of_nat (start_idx + Npar self)) ->
  match SetParameters sizeof_T self pars start_idx with
  | Ok self' =>
      (start_idx + Npar self <= length pars)%nat
      /\ parameters self' = slice start_idx (Npar self) pars
      /\ (if usebias_ self
          then bias_ self' = slice start_idx (out_size_ self) pars
               /\ weight_ self'
                  = slice (start_idx + out_size_ self)
                          (in_size_ self * out_size_ self) pars
          else bias_ self' = bias_ self
               /\ weight_ self'
                  = slice start_idx (in_size_ self * out_size_ self) pars)
      /\ layer_sized self'
      /\ usebias_ self' = usebias_ self
      /\ in_size_ self' = in_size_ self
      /\ out_size_ self' = out_size_ self
      /\ npar_ self' = npar_ self
  | Fail e => e = OutOfRange /\ (length pars < start_idx + Npar self)%nat
  end.
Proof.
  intros Hsize Hs _.
  pose proof (SetParameters_result pars start_idx Hsize Hs) as Hres.
  rewrite SetParameters_sized in Hres |- * by assumption.
  destruct (start_idx + npar_ self <=? length pars)%nat; [|exact Hres].
  destruct Hres as (Hin & Hpar & Hs' & Hub & Hi & Ho & Hn & _).
  repeat (split; [assumption|]). split; [|tauto].
  simpl. destruct (usebias_ self); [tauto|].
  now rewrite Nat.add_0_r.
Qed.

(** X4. Round trip, for a scalar type of the size of
    [std::complex<double>] and offsets that fit in an [int]: what
    [SetParameters] loaded from a window of a vector, [GetParameters] writes
    back; into the same window of the same vector it gives the vector back
    unchanged. *)
Theorem SetParameters_GetParameters (sizeof_T : nat) (self self' : Layer)
  (pars buf : list T) (start_idx k : nat) :
  sizeof_T = scalar_bytesize_ ->
  layer_sized self ->
  int_range (Z.of_nat (start_idx + Npar self)) ->
  int_range (Z.of_nat (k + Npar self)) ->
  SetParameters sizeof_T self pars start_idx = Ok self' ->
  (k + Npar self <= length buf)%nat ->
  GetParameters sizeof_T self' buf k
  = Ok (firstn k buf ++ slice start_idx (Npar self) pars
        ++ skipn (k + Npar self) buf)
  /\ GetParameters sizeof_T self' pars start_idx = Ok pars.
Proof.
  intros Hsize Hs _ _ Hset Hk.
  pose proof (SetParameters_result pars start_idx Hsize Hs) as Hload.
  rewrite Hset in Hload.
  destruct Hload as (Hin & Hpar & Hs' & _ & _ & _ & Hn & _).
  unfold Npar in *.
  rewrite !GetParameters_sized by assumption. rewrite Hn, Hpar.
  rewrite (proj2 (Nat.leb_le _ _) Hk), (proj2 (Nat.leb_le _ _) Hin).
  split; [reflexivity|]. f_equal. symmetry. apply slice_split.
Qed.

(** X5. Round trip, for a scalar type of the size of
    [std::complex<double>] and offsets that fit in an [int]: loading back
    what [GetParameters] wrote restores the layer exactly. *)
Theorem GetParameters_SetParameters (sizeof_T : nat) (self : Layer)
  (buf buf' : list T) (start_idx : nat) :
  sizeof_T = scalar_bytesize_ ->
  layer_sized self ->
  int_range (Z.of_nat (start_idx + Npar self)) ->
  GetParameters sizeof_T self buf start_idx = Ok buf' ->
  SetParameters sizeof_T self buf' start_idx = Ok self
  /\ length buf' = length buf.
Proof.
  intros Hsize Hs _ Hget.
  rewrite GetParameters_sized in Hget by assumption.
  destruct (Nat.leb_spec (start_idx + npar_ self) (length buf)) as [Hin|Hout];
    [|discriminate].
  injection Hget as <-.
  assert (Hlen : length (firstn start_idx buf ++ parameters self
                         ++ skipn (start_idx + npar_ self) buf) = length buf).
  { rewrite <- (parameters_length Hs) in *. apply overwrite_length. lia. }
  split; [|exact Hlen].
  rewrite SetParameters_sized, Hlen by assumption.
  rewrite (proj2 (Nat.leb_le _ _) Hin).
  assert (Hk : start_idx = length (firstn start_idx buf))
    by (rewrite length_firstn; lia).
  destruct Hs as (Hw & Hb & Hn).
  destruct self as [ub n m np w b]; simpl in *. subst np.
  unfold parameters; simpl. f_equal. f_equal.
  - destruct ub.
    + rewrite <- Hw, <- Hb.
      rewrite <- (app_assoc b w).
      rewrite (app_assoc (firstn start_idx buf) b).
      replace (start_idx + length b)%nat
        with (length (firstn start_idx buf ++ b))
        by (rewrite length_app; lia).
      apply slice_of_overwrite.
    + simpl. rewrite Nat.add_0_r, <- Hw.
      rewrite Hk at 1. apply slice_of_overwrite.
  - destruct ub; [|reflexivity].
    rewrite <- Hb. rewrite Hk at 1.
    rewrite <- (app_assoc b). apply slice_of_overwrite.
Qed.

(** X6. For a scalar type of the size of [std::complex<double>] and a
    number of parameters that fits in an [int], [InitRandomPars] stays
    inside its vector of [Npar] coefficients on every layer with the sizes
    of [Init]: it never fails, every sample becomes a parameter, in order,
    and none is left out. *)
Theorem InitRandomPars_loads_all (sizeof_T : nat) (sample : nat -> T)
  (self : Layer) :
  sizeof_T = scalar_bytesize_ ->
  layer_sized self ->
  int_range (Z.of_nat (Npar self)) ->
  exists self',
    InitRandomPars sizeof_T sample self = Ok self'
    /\ parameters self' = map sample (seq 0 (Npar self))
    /\ layer_sized self'
    /\ (if usebias_ self then True else bias_ self' = bias_ self).
Proof.
  intros Hsize Hs _. unfold InitRandomPars.
  pose proof (SetParameters_result
                (map sample (seq 0 (npar_ self))) 0 Hsize Hs) as Hload.
  destruct (SetParameters sizeof_T self (map sample (seq 0 (npar_ self))) 0)
    as [self'|e].
  - destruct Hload as (_ & Hpar & Hs' & _ & _ & _ & _ & Hb).
    exists self'. split; [reflexivity|]. split; [|split; assumption].
    rewrite Hpar. unfold Npar.
    apply slice_whole. now rewrite length_map, length_seq.
  - destruct Hload as (_ & Hlt).
    rewrite length_map, length_seq in Hlt. unfold Npar in Hlt. lia.
Qed.

(** X1. A freshly constructed layer whose number of parameters fits in an
    [int] has the sizes of its constructor arguments, whatever its fresh
    storage held, and [Npar] is the number of coefficients of its parameter
    vector.  For a scalar type of the size of [std::complex<double>]:
    after [InitRandomPars], [GetParameters] into a vector of [Npar] cells
    returns the samples, all of them and in order; without a bias, the bias
    vector is zero before and after. *)
Theorem fresh_layer_parameters (sizeof_T : nat)
  (raw_weight raw_bias sample : nat -> T)
  (use_bias : bool) (input_size output_size : nat) :
  sizeof_T = scalar_bytesize_ ->
  int_range (Z.of_nat (input_size * output_size
                       + (if use_bias then output_size else 0))) ->
  let self := layer_Init raw_weight raw_bias use_bias input_size output_size in
  layer_sized self
  /\ Ninput self = input_size
  /\ Noutput self = output_size
  /\ Npar self = (input_size * output_size
                  + (if use_bias then output_size else 0))%nat
  /\ int_range (Z.of_nat (Npar self))
  /\ Npar self = length (parameters self)
  /\ exists self',
       InitRandomPars sizeof_T sample self = Ok self'
       /\ GetParameters sizeof_T self' (repeat T0 (Npar self)) 0
          = Ok (map sample (seq 0 (Npar self)))
       /\ (if use_bias then True
           else bias_ self = repeat T0 output_size
                /\ bias_ self' = repeat T0 output_size).
Proof.
  intros Hsize Hint. cbv zeta.
  destruct (layer_Init_sized raw_weight raw_bias use_bias input_size output_size)
    as (Hs & Hi & Ho & Hl & Hn & Hb).
  repeat (split; [assumption|]).
  split; [now rewrite Hn|]. split; [assumption|].
  unfold InitRandomPars.
  pose proof (SetParameters_result
                (map sample (seq 0 (npar_ (layer_Init raw_weight raw_bias
                   use_bias input_size output_size)))) 0 Hsize Hs) as Hres.
  destruct (SetParameters sizeof_T _ _ 0) as [self'|e].
  - destruct Hres as (_ & Hpar & Hs' & _ & _ & _ & Hsame & Hb').
    exists self'. split; [reflexivity|]. split.
    + unfold Npar in *.
      rewrite GetParameters_sized by assumption.
      rewrite Hsame, repeat_length, Nat.leb_refl, Hpar.
      rewrite slice_whole by (now rewrite length_map, length_seq).
      simpl. rewrite skipn_all2 by (rewrite repeat_length; lia).
      now rewrite app_nil_r.
    + simpl in Hb'. destruct use_bias; [exact I|].
      simpl in Hb'. split; [exact Hb | now rewrite Hb'].
  - destruct Hres as (_ & Hlt).
    rewrite length_map, length_seq in Hlt. unfold Npar in Hlt. lia.
Qed.

End ParameterFacts.

(* ===================================================================== *)
(** ** The fully connected layer: lookups *)

Section LookupFacts.

Context {T : Type} {arith : LayerScalar T}.
Variable T1 : T.
Variable Topp : T -> T.
Hypothesis Tring : ring_theory T0 T1 Tadd Tmul Tsub Topp eq.

Add Ring layer_ring : Tring.

Local Abbreviation Layer := (@FullyConnected T).

Lemma set_coeff_length (i : nat) (x : T) (v : list T) :
  length (set_coeff i x v) = length v.
Proof.
  revert i; induction v as [|y v IH]; intros [|i]; simpl; auto.
Qed.

Lemma set_coeff_other (i k : nat) (x : T) (v : list T) :
  i <> k -> nth k (set_coeff i x v) T0 = nth k v T0.
Proof.
  revert i k; induction v as [|y v IH]; intros [|i] [|k] H; simpl; auto.
  - congruence.
Qed.

(** Changing one coefficient of a vector changes an inner product by the
    matching coefficient times the difference. *)
Lemma dot_set_coeff (c v : list T) (i : nat) (x : T) :
  (i < length v)%nat -> (i < length c)%nat ->
  dot c (set_coeff i x v)
  = Tadd (dot c v) (Tmul (nth i c T0) (Tsub x (nth i v T0))).
Proof.
  revert v i; induction c as [|a c IH]; intros [|y v] [|i] Hv Hc; simpl in *;
    try lia.
  - ring.
  - rewrite IH by lia. ring.
Qed.

Lemma vec_add_length (a b : list T) :
  length (vec_add a b) = Nat.min (length a) (length b).
Proof.
  revert b; induction a as [|x a IH]; intros [|y b]; simpl; auto.
Qed.

Lemma vec_add_map_assoc (A : Type) (b : list T) (g h : A -> T) (l : list A) :
  vec_add (vec_add b (map g l)) (map h l)
  = vec_add b (map (fun j => Tadd (g j) (h j)) l).
Proof.
  revert b; induction l as [|j l IH]; intros [|y b]; simpl; try reflexivity.
  rewrite IH. f_equal. ring.
Qed.

Lemma weight_col_nth (self : Layer) (i j : nat) :
  (i < in_size_ self)%nat ->
  nth i (weight_col self j) T0 = weight_coeff self i j.
Proof.
  intro H. unfold weight_col.
  rewrite (nth_indep _ T0 (weight_coeff self 0 j))
    by (now rewrite length_map, length_seq).
  rewrite (map_nth (fun i => weight_coeff self i j)), seq_nth by assumption.
  reflexivity.
Qed.

Lemma weight_col_length (self : Layer) (j : nat) :
  length (weight_col self j) = in_size_ self.
Proof. unfold weight_col. now rewrite length_map, length_seq. Qed.

Lemma Forward_affine (self : Layer) (x : list T) :
  length (bias_ self) = out_size_ self ->
  length x = in_size_ self ->
  Forward self x = Ok (affine self x).
Proof.
  intros Hb Hx. unfold Forward, LinearTransformation, affine.
  now rewrite Hb, Hx, !Nat.eqb_refl.
Qed.

Lemma affine_length (self : Layer) (x : list T) :
  length (bias_ self) = out_size_ self ->
  length (affine self x) = out_size_ self.
Proof.
  intro Hb. unfold affine.
  rewrite vec_add_length, length_map, length_seq, Hb. apply Nat.min_id.
Qed.

(** One change of the input moves the output by a multiple of a row. *)
Lemma affine_set_coeff (self : Layer) (x : list T) (i : nat) (a : T) :
  length x = in_size_ self ->
  (i < in_size_ self)%nat ->
  vec_add (affine self x)
          (map (fun w => Tmul w (Tsub a (nth i x T0))) (weight_row self i))
  = affine self (set_coeff i a x).
Proof.
  intros Hx Hi. unfold affine, weight_row.
  rewrite map_map, vec_add_map_assoc. f_equal.
  apply map_ext. intro j.
  rewrite dot_set_coeff by (rewrite ?weight_col_length; lia).
  now rewrite weight_col_nth.
Qed.

Lemma coeff_at_nth (v : list T) (i : nat) :
  (i < length v)%nat -> coeff_at v (Z.of_nat i) = Ok (nth i v T0).
Proof.
  intro H. unfold coeff_at.
  destruct (Z.ltb_spec (Z.of_nat i) 0) as [Hneg|_]; [lia|].
  rewrite Nat2Z.id.
  destruct (nth_error v i) as [y|] eqn:E.
  - now rewrite (nth_error_nth _ _ _ E).
  - apply nth_error_None in E. lia.
Qed.

Lemma UpdateOutput_loop_affine (self : Layer) (v new_input : list T)
  (changes : list Z) :
  length (bias_ self) = out_size_ self ->
  length v = in_size_ self ->
  NoDup changes ->
  Forall (fun sf => (0 <= sf < Z.of_nat (in_size_ self))%Z) changes ->
  forall (s : nat) (x : list T),
    length x = in_size_ self ->
    (s + length changes <= length new_input)%nat ->
    (forall sf, In sf changes -> nth (Z.to_nat sf) x T0 = nth (Z.to_nat sf) v T0) ->
    UpdateOutput_loop self v new_input s changes (affine self x)
    = Ok (affine self (changed_input changes (skipn s new_input) x)).
Proof.
  intros Hb Hv Hnd Hrange.
  induction changes as [|sf rest IH]; intros s x Hx Hlen Hsame; simpl.
  - reflexivity.
  - inversion Hnd as [|? ? Hnotin Hnd']; subst.
    inversion Hrange as [|? ? Hsf Hrange']; subst.
    simpl in Hlen.
    unfold UpdateOutput_step.
    destruct (Z.ltb_spec sf 0) as [?|_]; [lia|].
    destruct (Z.leb_spec (Z.of_nat (in_size_ self)) sf) as [?|_]; [lia|].
    rewrite affine_length, Nat.eqb_refl by assumption. simpl.
    rewrite coeff_at_nth by lia. cbn [bind].
    rewrite <- (Z2Nat.id sf) at 1 by lia.
    rewrite coeff_at_nth by lia. cbn [bind].
    rewrite <- (Hsame sf (or_introl eq_refl)).
    rewrite affine_set_coeff by lia.
    rewrite IH; try assumption.
    + destruct (skipn s new_input) as [|a vals] eqn:E.
      * apply (f_equal (@length T)) in E. rewrite length_skipn in E.
        simpl in E. lia.
      * assert (Ha : nth s new_input T0 = a).
        { rewrite <- (firstn_skipn s new_input), E.
          rewrite app_nth2 by (rewrite length_firstn; lia).
          rewrite length_firstn, Nat.min_l by lia.
          now rewrite Nat.sub_diag. }
        assert (Hv' : skipn (S s) new_input = vals).
        { replace (S s) with (1 + s)%nat by lia.
          rewrite <- skipn_skipn, E. reflexivity. }
        now rewrite Ha, Hv'.
    + now rewrite set_coeff_length.
    + lia.
    + intros sf' Hin. rewrite set_coeff_other; [now apply Hsame; right|].
      intro Heq. apply Hnotin.
      rewrite Forall_forall in Hrange'. pose proof (Hrange' sf' Hin).
      assert (sf = sf') by lia. now subst.
Qed.


Lemma changed_input_length (changes : list Z) (vals x : list T) :
  length (changed_input changes vals x) = length x.
Proof.
  revert vals x; induction changes as [|sf rest IH]; intros [|a vals] x; simpl;
    try reflexivity.
  now rewrite IH, set_coeff_length.
Qed.

Lemma set_coeff_split (k : nat) (a : T) (x : list T) :
  (k < length x)%nat ->
  set_coeff k a x = firstn k x ++ a :: skipn (S k) x.
Proof.
  revert k; induction x as [|y x IH]; intros [|k] H; simpl in *; try lia.
  - reflexivity.
  - now rewrite IH by lia.
Qed.

(** Changing the sites [k, k+1, ...] in order overwrites a slice. *)
Lemma changed_input_in_order (m k : nat) (vals x : list T) :
  length vals = m ->
  (k + m <= length x)%nat ->
  changed_input (map Z.of_nat (seq k m)) vals x
  = firstn k x ++ vals ++ skipn (k + m) x.
Proof.
  revert k vals x; induction m as [|m IH]; intros k [|a vals] x Hv Hx;
    simpl in *; try lia.
  - now rewrite Nat.add_0_r, firstn_skipn.
  - rewrite Nat2Z.id, IH by (rewrite ?set_coeff_length; lia).
    rewrite set_coeff_split by lia.
    assert (Hk : length (firstn k x) = k) by (rewrite length_firstn; lia).
    replace (firstn k x ++ a :: skipn (S k) x)
      with ((firstn k x ++ [a]) ++ skipn (S k) x)
      by (now rewrite <- app_assoc).
    rewrite (firstn_exact (firstn k x ++ [a]))
      by (rewrite length_app, Hk; simpl; lia).
    replace (S k + m)%nat with (m + length (firstn k x ++ [a]))%nat
      by (rewrite length_app, Hk; simpl; lia).
    rewrite <- skipn_skipn, skipn_exact by reflexivity.
    rewrite skipn_skipn, <- app_assoc. simpl.
    now replace (m + S k)%nat with (k + S m)%nat by lia.
Qed.

Lemma UpdateOutput_affine (self : Layer) (v new_input : list T) (changes : list Z) :
  layer_sized self ->
  length v = in_size_ self ->
  NoDup changes ->
  Forall (fun sf => (0 <= sf < Z.of_nat (in_size_ self))%Z) changes ->
  (length changes <= length new_input)%nat ->
  UpdateOutput self v changes new_input (affine self v)
  = Ok (affine self (changed_input changes new_input v))
  /\ Forward self (changed_input changes new_input v)
     = Ok (affine self (changed_input changes new_input v)).
Proof.
  intros (_ & Hb & _) Hv Hnd Hrange Hlen. split.
  - unfold UpdateOutput.
    now rewrite UpdateOutput_loop_affine.
  - apply Forward_affine; [assumption|].
    now rewrite changed_input_length.
Qed.

Lemma Forward_inv (self : Layer) (x out : list T) :
  Forward self x = Ok out ->
  length x = in_size_ self /\ out = affine self x.
Proof.
  unfold Forward, LinearTransformation, affine.
  destruct (Nat.eqb_spec (length x) (in_size_ self)) as [Hx|]; [|discriminate].
  destruct (length (bias_ self) =? out_size_ self)%nat; [|discriminate].
  simpl. intro E. injection E as <-. now split.
Qed.

(** X7. In exact arithmetic (the scalar operations forming a commutative
    ring) the incremental update of the output agrees with a fresh forward
    pass on the changed input, provided the changed sites are distinct
    sites of the input and each has its new value. *)
Theorem UpdateOutput_matches_Forward (self : Layer) (v new_input output : list T)
  (input_changes : list Z) :
  layer_sized self ->
  NoDup input_changes ->
  Forall (fun sf => (0 <= sf < Z.of_nat (in_size_ self))%Z) input_changes ->
  (length input_changes <= length new_input)%nat ->
  Forward self v = Ok output ->
  exists new_output,
    UpdateOutput self v input_changes new_input output = Ok new_output
    /\ Forward self (changed_input input_changes new_input v) = Ok new_output.
Proof.
  intros Hs Hnd Hrange Hlen Hfw.
  apply Forward_inv in Hfw as [Hv ->].
  destruct (@UpdateOutput_affine self v new_input input_changes Hs Hv Hnd Hrange Hlen) as [E1 E2].
  eexists. split; [exact E1 | exact E2].
Qed.

(** X8. In exact arithmetic, [UpdateLookup] with a non-empty list of
    distinct changed sites returns the output of a fresh forward pass on
    the changed input; when there are as many changes as inputs the new
    values are taken as the whole new input, so the sites must then be
    listed in site order.  [output_changes] is only given the size of the
    output. *)
Theorem UpdateLookup_matches_Forward (self : Layer)
  (input new_input output : list T) (input_changes output_changes : list Z) :
  layer_sized self ->
  NoDup input_changes ->
  Forall (fun sf => (0 <= sf < Z.of_nat (in_size_ self))%Z) input_changes ->
  length new_input = length input_changes ->
  input_changes <> [] ->
  (length input_changes = in_size_ self ->
   input_changes = map Z.of_nat (seq 0 (in_size_ self))) ->
  Forward self input = Ok output ->
  exists new_output,
    UpdateLookup self input input_changes new_input output output_changes
    = Ok (vector_resize (out_size_ self) output_changes, new_output)
    /\ length (vector_resize (out_size_ self) output_changes) = out_size_ self
    /\ Forward self (changed_input input_changes new_input input) = Ok new_output.
Proof.
  intros Hs Hnd Hrange Hlen Hne Hfull Hfw.
  apply Forward_inv in Hfw as [Hv ->].
  assert (Hres : length (vector_resize (out_size_ self) output_changes)
                 = out_size_ self).
  { unfold vector_resize. rewrite length_app, length_firstn, repeat_length. lia. }
  unfold UpdateLookup.
  destruct (Nat.eqb_spec (length input_changes) (in_size_ self)) as [Hall|Hsome].
  - rewrite (Hfull Hall).
    rewrite changed_input_in_order by lia.
    simpl. rewrite skipn_all2, app_nil_r by lia.
    destruct Hs as (_ & Hb & _).
    rewrite Forward_affine by (assumption || lia). cbn [bind].
    eexists. split; [reflexivity|]. split; [exact Hres | reflexivity].
  - destruct (Nat.ltb_spec 0 (length input_changes)) as [_|Hzero].
    + assert (Hle : (length input_changes <= length new_input)%nat) by lia.
      destruct (@UpdateOutput_affine self input new_input input_changes Hs Hv Hnd Hrange Hle) as [E1 E2].
      rewrite E1. cbn [bind].
      eexists. split; [reflexivity|]. split; [exact Hres | exact E2].
    + destruct input_changes; [congruence | simpl in Hzero; lia].
Qed.

End LookupFacts.

(* ===================================================================== *)
(** ** The fully connected layer: gradients *)

Section BackpropFacts.

Context {T : Type} {arith : LayerScalar T}.

Local Abbreviation Layer := (@FullyConnected T).

Lemma copy_to_spec (A : Type) (src : list A) (off : nat) (dst : list A) :
  copy_to src off dst
  = if (off + length src <=? length dst)%nat
    then Ok (firstn off dst ++ src ++ skipn (off + length src) dst)
    else Fail OutOfRange.
Proof. reflexivity. Qed.

Lemma outer_product_length (prev dout : list T) :
  length (outer_product prev dout) = (length prev * length dout)%nat.
Proof.
  unfold outer_product. induction dout as [|d dout IH]; simpl.
  - lia.
  - rewrite length_app, length_map, IH. lia.
Qed.

(** Cell [i + j * rows] of the outer product is [prev(i) * dout(j)]. *)
Lemma outer_product_nth (prev dout : list T) (i j : nat) :
  (i < length prev)%nat -> (j < length dout)%nat ->
  nth (i + j * length prev) (outer_product prev dout) T0
  = Tmul (nth i prev T0) (nth j dout T0).
Proof.
  intros Hi. revert j. unfold outer_product.
  induction dout as [|d dout IH]; intros [|j] Hj; simpl in *; try lia.
  - rewrite Nat.add_0_r, app_nth1 by (now rewrite length_map).
    rewrite (nth_indep _ T0 (Tmul T0 d)) by (now rewrite length_map).
    now rewrite (map_nth (fun p => Tmul p d)).
  - rewrite app_nth2 by (rewrite length_map; lia).
    rewrite length_map.
    replace (i + (length prev + j * length prev) - length prev)%nat
      with (i + j * length prev)%nat by lia.
    apply IH. lia.
Qed.

(** The gradient in the order of [GetParameters]. *)
Lemma Backprop_sized (self : Layer) (prev dout der : list T) (k : nat) :
  layer_sized self ->
  Backprop self prev dout der k
  = if ((length prev =? in_size_ self) && (length dout =? out_size_ self)
        && (k + npar_ self <=? length der))%nat
    then Ok (map (fun i => dot (weight_row self i) dout) (seq 0 (in_size_ self)),
             firstn k der
             ++ ((if usebias_ self then dout else []) ++ outer_product prev dout)
             ++ skipn (k + npar_ self) der)
    else Fail OutOfRange.
Proof.
  destruct self as [ub n m np w b]. unfold layer_sized, Backprop. simpl.
  intros (_ & _ & ->).
  destruct (Nat.eqb_spec (length dout) m) as [Hd|Hd];
    destruct (Nat.eqb_spec (length prev) n) as [Hp|Hp];
    destruct ub; simpl; rewrite ?copy_to_spec; try reflexivity;
    try (now destruct (_ <=? _)%nat).
  - subst n m.
    destruct (Nat.leb_spec (k + length dout) (length der)) as [H1|H1].
    + cbn [bind]. rewrite copy_to_spec, overwrite_length by lia.
      rewrite outer_product_length.
      destruct (Nat.leb_spec (k + length dout + length prev * length dout)
                             (length der)) as [H2|H2].
      * rewrite (proj2 (Nat.leb_le _ _)) by lia. cbn [bind].
        do 2 f_equal.
        rewrite <- outer_product_length in H2 |- *.
        rewrite overwrite_adjacent by lia. reflexivity.
      * rewrite (proj2 (Nat.leb_gt _ _)) by lia. reflexivity.
    + cbn [bind]. rewrite (proj2 (Nat.leb_gt _ _)) by lia. reflexivity.
  - subst n m. rewrite outer_product_length. simpl.
    now destruct (Nat.leb_spec (k + length prev * length dout) (length der)).
Qed.


Lemma gradient_length (self : Layer) (prev dout : list T) :
  layer_sized self ->
  length prev = in_size_ self ->
  length dout = out_size_ self ->
  length ((if usebias_ self then dout else []) ++ outer_product prev dout)
  = npar_ self.
Proof.
  intros (_ & _ & Hn) Hp Hd.
  rewrite length_app, outer_product_length, Hn, Hp, Hd.
  destruct (usebias_ self); simpl; lia.
Qed.


(** X10. For a scalar type of the size of [std::complex<double>] and
    offsets that fit in an [int], the gradient of a parameter is stored at
    the index of the parameter: where [GetParameters] writes weight
    [(i, j)], [Backprop] writes [prev_layer_output(i) * dout(j)]; where it
    writes bias [j], [Backprop] writes [dout(j)]. *)
Theorem Backprop_gradient_layout (sizeof_T : nat) (self : Layer)
  (prev_layer_output dout der pars : list T) (start_idx : nat) :
  sizeof_T = scalar_bytesize_ ->
  layer_sized self ->
  int_range (Z.of_nat (start_idx + Npar self)) ->
  length prev_layer_output = Ninput self ->
  length dout = Noutput self ->
  (start_idx + Npar self <= length der)%nat ->
  (start_idx + Npar self <= length pars)%nat ->
  exists din der' pars',
    Backprop self prev_layer_output dout der start_idx = Ok (din, der')
    /\ GetParameters sizeof_T self pars start_idx = Ok pars'
    /\ (forall i j, (i < Ninput self)%nat -> (j < Noutput self)%nat ->
          let p := (start_idx + ((if usebias_ self then Noutput self else 0)
                                 + (i + j * Ninput self)))%nat in
          nth p pars' T0 = weight_coeff self i j
          /\ nth p der' T0
             = Tmul (nth i prev_layer_output T0) (nth j dout T0))
    /\ (forall j, usebias_ self = true -> (j < Noutput self)%nat ->
          nth (start_idx + j) pars' T0 = nth j (bias_ self) T0
          /\ nth (start_idx + j) der' T0 = nth j dout T0).
Proof.
  unfold Ninput, Noutput, Npar. intros Hsize Hs _ Hp Hd Hder Hpars.
  rewrite Backprop_sized, GetParameters_sized by assumption.
  rewrite Hp, Hd, !Nat.eqb_refl.
  rewrite (proj2 (Nat.leb_le _ _) Hder), (proj2 (Nat.leb_le _ _) Hpars).
  simpl. do 3 eexists. split; [reflexivity|]. split; [reflexivity|].
  destruct Hs as (Hw & Hb & Hn). unfold parameters.
  split.
  - intros i j Hi Hj. cbv zeta.
    assert (Hij : (i + j * in_size_ self < in_size_ self * out_size_ self)%nat) by nia.
    assert (Ho : length (outer_product prev_layer_output dout)
                 = (in_size_ self * out_size_ self)%nat)
      by (rewrite outer_product_length; congruence).
    split.
    + rewrite nth_in_window
        by (rewrite ?length_app, ?Hw; destruct (usebias_ self); simpl; lia).
      destruct (usebias_ self); simpl.
      * rewrite app_nth2 by lia.
        rewrite Hb. unfold weight_coeff. f_equal. lia.
      * reflexivity.
    + rewrite nth_in_window
        by (rewrite ?length_app, ?Ho; destruct (usebias_ self); simpl; lia).
      rewrite <- Hp at 1.
      destruct (usebias_ self); simpl.
      * rewrite app_nth2 by lia.
        replace (out_size_ self + (i + j * length prev_layer_output) - length dout)%nat
          with (i + j * length prev_layer_output)%nat by lia.
        apply outer_product_nth; lia.
      * apply outer_product_nth; lia.
  - intros j Hub Hj. rewrite Hub.
    split.
    + rewrite nth_in_window by (rewrite ?length_app; lia).
      now rewrite app_nth1 by lia.
    + rewrite nth_in_window by (rewrite ?length_app; lia).
      now rewrite app_nth1 by lia.
Qed.

End BackpropFacts.

Section GradientFacts.

Context {T : Type} {arith : LayerScalar T}.
Variable T1 : T.
Variable Topp : T -> T.
Hypothesis Tring : ring_theory T0 T1 Tadd Tmul Tsub Topp eq.

Add Ring gradient_ring : Tring.

Local Abbreviation Layer := (@FullyConnected T).

Lemma big_sum_ext (f g : nat -> T) (n : nat) :
  (forall k, (k < n)%nat -> f k = g k) -> big_sum f n = big_sum g n.
Proof.
  induction n as [|n IH]; intro H; simpl; [reflexivity|].
  rewrite IH, H by (intros; try apply H; lia). reflexivity.
Qed.

Lemma big_sum_shift (f : nat -> T) (n : nat) :
  big_sum f (S n) = Tadd (f 0%nat) (big_sum (fun k => f (S k)) n).
Proof.
  induction n as [|n IH]; simpl in *; [ring|].
  rewrite IH. ring.
Qed.

Lemma big_sum_add (f g : nat -> T) (n : nat) :
  big_sum (fun k => Tadd (f k) (g k)) n = Tadd (big_sum f n) (big_sum g n).
Proof.
  induction n as [|n IH]; simpl; [ring|]. rewrite IH. ring.
Qed.

Lemma big_sum_mul_l (c : T) (f : nat -> T) (n : nat) :
  Tmul c (big_sum f n) = big_sum (fun k => Tmul c (f k)) n.
Proof.
  induction n as [|n IH]; simpl; [ring|]. rewrite <- IH. ring.
Qed.

Lemma big_sum_mul_r (c : T) (f : nat -> T) (n : nat) :
  Tmul (big_sum f n) c = big_sum (fun k => Tmul (f k) c) n.
Proof.
  induction n as [|n IH]; simpl; [ring|]. rewrite <- IH. ring.
Qed.

Lemma big_sum_swap (g : nat -> nat -> T) (n m : nat) :
  big_sum (fun i => big_sum (fun j => g i j) m) n
  = big_sum (fun j => big_sum (fun i => g i j) n) m.
Proof.
  induction n as [|n IH]; simpl.
  - induction m as [|m IHm]; simpl; [reflexivity|]. rewrite <- IHm. ring.
  - rewrite IH, <- big_sum_add. reflexivity.
Qed.

Lemma big_sum_plus (f : nat -> T) (n m : nat) :
  big_sum f (n + m) = Tadd (big_sum f n) (big_sum (fun k => f (n + k)%nat) m).
Proof.
  induction m as [|m IH]; simpl.
  - rewrite Nat.add_0_r. ring.
  - rewrite Nat.add_succ_r. simpl. rewrite IH. ring.
Qed.

(** A sum over the cells of a column-major matrix, column by column. *)
Lemma big_sum_columns (f : nat -> T) (n m : nat) :
  big_sum f (n * m)
  = big_sum (fun j => big_sum (fun i => f (i + j * n)%nat) n) m.
Proof.
  induction m as [|m IH]; simpl.
  - now rewrite Nat.mul_0_r.
  - rewrite Nat.mul_succ_r, big_sum_plus, IH. f_equal.
    apply big_sum_ext. intros k _. f_equal. lia.
Qed.

Lemma weight_row_length (self : Layer) (i : nat) :
  length (weight_row self i) = out_size_ self.
Proof. unfold weight_row. now rewrite length_map, length_seq. Qed.

Lemma dot_big_sum (a b : list T) :
  length a = length b ->
  dot a b = big_sum (fun k => Tmul (nth k a T0) (nth k b T0)) (length a).
Proof.
  revert b; induction a as [|x a IH]; intros [|y b] H; simpl in H;
    try discriminate; [reflexivity|].
  cbn [dot length]. rewrite big_sum_shift, IH by lia. reflexivity.
Qed.

Lemma nth_map_seq (f : nat -> T) (n k : nat) :
  (k < n)%nat -> nth k (map f (seq 0 n)) T0 = f k.
Proof.
  intro H. rewrite (nth_indep _ T0 (f 0%nat)) by (now rewrite length_map, length_seq).
  now rewrite (map_nth f), seq_nth.
Qed.

(** The pairing of [dout] with the linear part of the output, as a double
    sum over the coefficients of the matrix. *)
Lemma pairing_double_sum (self : Layer) (x dout : list T) :
  length x = in_size_ self ->
  length dout = out_size_ self ->
  dot dout (map (fun j => dot (weight_col self j) x) (seq 0 (out_size_ self)))
  = big_sum (fun j => big_sum (fun i =>
      Tmul (Tmul (weight_coeff self i j) (nth i x T0)) (nth j dout T0))
      (in_size_ self)) (out_size_ self).
Proof.
  intros Hx Hd.
  rewrite dot_big_sum by (now rewrite length_map, length_seq).
  rewrite Hd. apply big_sum_ext. intros j Hj.
  rewrite nth_map_seq by assumption.
  rewrite dot_big_sum by (unfold weight_col; now rewrite length_map, length_seq).
  rewrite weight_col_length.
  rewrite (Tring.(Rmul_comm)), big_sum_mul_r.
  apply big_sum_ext. intros i Hi.
  unfold weight_col. now rewrite nth_map_seq.
Qed.

(** [din = weight_ * dout] is the gradient with respect to the input:
    pairing it with any input gives the pairing of [dout] with the linear
    part of the output on that input. *)
Lemma input_gradient_pairing (self : Layer) (x dout : list T) :
  length x = in_size_ self ->
  length dout = out_size_ self ->
  dot (map (fun i => dot (weight_row self i) dout) (seq 0 (in_size_ self))) x
  = dot dout (map (fun j => dot (weight_col self j) x) (seq 0 (out_size_ self))).
Proof.
  intros Hx Hd. rewrite pairing_double_sum by assumption.
  rewrite dot_big_sum by (now rewrite length_map, length_seq).
  rewrite length_map, length_seq, big_sum_swap.
  apply big_sum_ext. intros i Hi.
  rewrite nth_map_seq by assumption.
  rewrite dot_big_sum by (unfold weight_row; now rewrite length_map, length_seq).
  rewrite weight_row_length, big_sum_mul_r.
  apply big_sum_ext. intros j Hj.
  unfold weight_row. rewrite nth_map_seq by assumption. ring.
Qed.

(** The outer product is the gradient with respect to the weights. *)
Lemma weight_gradient_pairing (self : Layer) (x dout : list T) :
  length (weight_ self) = (in_size_ self * out_size_ self)%nat ->
  length x = in_size_ self ->
  length dout = out_size_ self ->
  dot (weight_ self) (outer_product x dout)
  = dot dout (map (fun j => dot (weight_col self j) x) (seq 0 (out_size_ self))).
Proof.
  intros Hw Hx Hd. rewrite pairing_double_sum by assumption.
  rewrite dot_big_sum by (rewrite outer_product_length; congruence).
  rewrite Hw, big_sum_columns.
  apply big_sum_ext. intros j Hj. apply big_sum_ext. intros i Hi.
  rewrite <- Hx at 2. rewrite outer_product_nth by lia.
  unfold weight_coeff. ring.
Qed.


Lemma dot_comm (a b : list T) : dot a b = dot b a.
Proof.
  revert b; induction a as [|x a IH]; intros [|y b]; simpl; try reflexivity.
  rewrite IH. ring.
Qed.

Lemma dot_app (a b c d : list T) :
  length a = length c ->
  dot (a ++ b) (c ++ d) = Tadd (dot a c) (dot b d).
Proof.
  revert c; induction a as [|x a IH]; intros [|y c] H; simpl in *;
    try discriminate.
  - ring.
  - rewrite IH by lia. ring.
Qed.

Lemma dot_vec_add (d b l : list T) :
  length b = length l ->
  dot d (vec_add b l) = Tadd (dot d b) (dot d l).
Proof.
  revert b l; induction d as [|x d IH]; intros [|y b] [|z l] H; simpl in *;
    try discriminate; try ring.
  rewrite IH by lia. ring.
Qed.

Lemma dot_zero_r (a : list T) (n : nat) : dot a (repeat T0 n) = T0.
Proof.
  revert n; induction a as [|x a IH]; intros [|n]; simpl; try reflexivity.
  rewrite IH. ring.
Qed.

Lemma Backprop_inv (self : Layer) (prev dout der din der' : list T) (k : nat) :
  layer_sized self ->
  Backprop self prev dout der k = Ok (din, der') ->
  length prev = in_size_ self
  /\ length dout = out_size_ self
  /\ (k + npar_ self <= length der)%nat
  /\ din = map (fun i => dot (weight_row self i) dout) (seq 0 (in_size_ self))
  /\ der' = firstn k der
            ++ ((if usebias_ self then dout else []) ++ outer_product prev dout)
            ++ skipn (k + npar_ self) der.
Proof.
  intros Hs. rewrite Backprop_sized by assumption.
  destruct (Nat.eqb_spec (length prev) (in_size_ self)); [|discriminate].
  destruct (Nat.eqb_spec (length dout) (out_size_ self)); [|discriminate].
  destruct (Nat.leb_spec (k + npar_ self) (length der)); [|discriminate].
  simpl. intro E. injection E as <- <-. auto.
Qed.

(** X11. In exact arithmetic [din] is the gradient with respect to the input:
    paired with any input [x], it gives [dout] paired with the linear part
    [weight_.transpose() * x] of the forward pass. *)
Theorem Backprop_input_gradient (self : Layer)
  (prev_layer_output dout der din der' x : list T) (start_idx : nat) :
  layer_sized self ->
  Backprop self prev_layer_output dout der start_idx = Ok (din, der') ->
  length x = Ninput self ->
  let linear := map (fun j => dot (weight_col self j) x) (seq 0 (Noutput self)) in
  Forward self x = Ok (vec_add (bias_ self) linear)
  /\ dot din x = dot dout linear.
Proof.
  unfold Ninput, Noutput. intros Hs Hbp Hx. cbv zeta.
  destruct (@Backprop_inv self prev_layer_output dout der din der' start_idx
              Hs Hbp) as (_ & Hd & _ & -> & _).
  split.
  - destruct Hs as (_ & Hb & _). now apply Forward_affine.
  - now apply input_gradient_pairing.
Qed.

(** X12. In exact arithmetic the window that [Backprop] writes is the gradient
    with respect to the parameters: for every layer [other] of the same
    shape (a bias of zeros when it has none), its parameters paired with
    the window give [dout] paired with its output on the same input. *)
Theorem Backprop_parameter_gradient (self other : Layer)
  (prev_layer_output dout der din der' : list T) (start_idx : nat) :
  layer_sized self ->
  layer_sized other ->
  usebias_ other = usebias_ self ->
  in_size_ other = in_size_ self ->
  out_size_ other = out_size_ self ->
  (usebias_ other = false -> bias_ other = repeat T0 (out_size_ other)) ->
  Backprop self prev_layer_output dout der start_idx = Ok (din, der') ->
  exists output,
    Forward other prev_layer_output = Ok output
    /\ dot (parameters other) (slice start_idx (Npar self) der') = dot dout output.
Proof.
  intros Hs Ho Hub Hin Hout Hzero Hbp.
  destruct (@Backprop_inv self prev_layer_output dout der din der' start_idx
              Hs Hbp) as (Hp & Hd & Hk & _ & ->).
  pose proof (@gradient_length _ _ self prev_layer_output dout Hs Hp Hd) as Hg.
  unfold Npar. rewrite <- Hg in Hk |- *.
  destruct (@window_frame T start_idx der _ Hk) as (_ & _ & _ & ->).
  destruct Ho as (Hw & Hb & _).
  exists (affine other prev_layer_output).
  split; [apply Forward_affine; congruence|].
  unfold affine, parameters.
  rewrite dot_vec_add by (rewrite length_map, length_seq; congruence).
  rewrite <- (@weight_gradient_pairing other prev_layer_output dout)
    by congruence.
  rewrite <- Hub.
  destruct (usebias_ other) eqn:Eub.
  - rewrite dot_app by congruence. now rewrite (dot_comm dout).
  - simpl. rewrite (Hzero eq_refl), dot_zero_r. ring.
Qed.

End GradientFacts.

(* ===================================================================== *)
(** ** The adapter and the jump operators: further properties *)

Section AdapterExtras.

Context {R C Op : Type}.
Context {scalars : ScalarOps R C}.
Context {operators : LocalOperatorOps R C Op}.

Local Abbreviation Conn := (ConnectorRef R C).
Local Abbreviation SuperConn := (ConnectorSuperopRef R C).
Local Abbreviation Lindbladian := (@LocalLindbladian Op).
Local Abbreviation Outputs := (@ConnOutputs R C).

(** Copying behind [pre] into a buffer that continues with [n] equal
    cells. *)
Lemma copy_to_padding (A : Type) (src pre : list A) (z : A) (n : nat) :
  copy_to src (length pre) (pre ++ repeat z n)
  = if (length src <=? n)%nat
    then Ok (pre ++ src ++ repeat z (n - length src))
    else Fail OutOfRange.
Proof.
  unfold copy_to. rewrite length_app, repeat_length.
  destruct (Nat.leb_spec (length src) n) as [Hle|Hgt].
  - rewrite (proj2 (Nat.leb_le _ _)) by lia.
    rewrite firstn_app, firstn_all, Nat.sub_diag, firstn_O, app_nil_r.
    rewrite skipn_app, skipn_all2 by lia. simpl.
    replace (length pre + length src - length pre)%nat with (length src) by lia.
    do 3 f_equal.
    replace n with (length src + (n - length src))%nat at 1 by lia.
    rewrite repeat_app, skipn_app, skipn_all2 by (rewrite repeat_length; lia).
    rewrite repeat_length, Nat.sub_diag. reflexivity.
  - rewrite (proj2 (Nat.leb_gt _ _)) by lia. reflexivity.
Qed.

Lemma copy_to_fresh (A : Type) (src : list A) (z : A) (n : nat) :
  copy_to src 0 (repeat z n)
  = if (length src <=? n)%nat
    then Ok (src ++ repeat z (n - length src))
    else Fail OutOfRange.
Proof. exact (copy_to_padding src [] z n). Qed.

Lemma flat_connection_cases (N : nat) (conn : SuperConn) :
  let size := (length (tochange_row conn) + length (tochange_col conn))%nat in
  let used := (length (newconf_row conn) + length (newconf_col conn))%nat in
  flat_connection N conn
  = if (used <=? size)%nat
    then Ok (mkConn (sup_mel conn)
               (tochange_row conn
                ++ map (fun i => (i + Z.of_nat N)%Z) (tochange_col conn))
               (newconf_row conn ++ newconf_col conn
                ++ repeat (Rlit 0) (size - used)))
    else Fail OutOfRange.
Proof.
  cbv zeta. unfold flat_connection, transform_to. cbv zeta.
  rewrite copy_to_fresh.
  rewrite (proj2 (Nat.leb_le _ _)) by lia. cbn [bind app].
  replace (length (tochange_row conn) + length (tochange_col conn)
           - length (tochange_row conn))%nat
    with (length (tochange_col conn)) by lia.
  rewrite copy_to_padding, length_map, Nat.leb_refl, Nat.sub_diag.
  cbn [bind repeat]. rewrite app_nil_r.
  rewrite copy_to_fresh.
  destruct (Nat.leb_spec (length (newconf_row conn))
              (length (tochange_row conn) + length (tochange_col conn)))
    as [Hrow|Hrow].
  - cbn [bind]. rewrite copy_to_padding.
    destruct (Nat.leb_spec (length (newconf_col conn))
                (length (tochange_row conn) + length (tochange_col conn)
                 - length (newconf_row conn))) as [Hcol|Hcol].
    + rewrite (proj2 (Nat.leb_le _ _)) by lia. cbn [bind].
      do 4 f_equal. f_equal. lia.
    + rewrite (proj2 (Nat.leb_gt _ _)) by lia. reflexivity.
  - cbn [bind]. rewrite (proj2 (Nat.leb_gt _ _)) by lia. reflexivity.
Qed.


Lemma map_outcome_Forall (A B : Type) (k : A -> outcome B) (P : B -> Prop)
  (l : list A) (bs : list B) :
  (forall a b, In a l -> k a = Ok b -> P b) ->
  map_outcome k l = Ok bs -> Forall P bs.
Proof.
  revert bs; induction l as [|a l IH]; intros bs Hk; simpl.
  - intro E. injection E as <-. constructor.
  - destruct (k a) as [b|e] eqn:Ea; simpl; [|discriminate].
    destruct (map_outcome k l) as [bs'|e] eqn:El; simpl; [|discriminate].
    intro E. injection E as <-. constructor.
    + apply (Hk a b); [now left | assumption].
    + apply IH; [|reflexivity]. intros a' b' Hin. apply Hk. now right.
Qed.

Lemma map_outcome_length (A B : Type) (k : A -> outcome B) (l : list A)
  (bs : list B) :
  map_outcome k l = Ok bs -> length bs = length l.
Proof.
  revert bs; induction l as [|a l IH]; intros bs; simpl.
  - intro E. now injection E as <-.
  - destruct (k a) as [b|e]; simpl; [|discriminate].
    destruct (map_outcome k l) as [bs'|e]; simpl; [|discriminate].
    intro E. injection E as <-. simpl. f_equal. now apply IH.
Qed.

Lemma flat_connection_Ok_well_formed (N : nat) (conn : SuperConn) (c : Conn) :
  flat_connection N conn = Ok c -> well_formed c.
Proof.
  rewrite flat_connection_cases. cbv zeta.
  destruct (Nat.leb_spec (length (newconf_row conn) + length (newconf_col conn))
              (length (tochange_row conn) + length (tochange_col conn)));
    [|discriminate].
  intro E. injection E as <-. unfold well_formed; simpl.
  rewrite !length_app, length_map, repeat_length. lia.
Qed.

(** X13. Provided [N], the site indices and the column indices shifted by
    [N] are values of an [int] (the sum [std::plus<int>] computes is then
    the sum of the integers): the buffers of the adapter are sized by the
    index lists alone.  A superoperator-connection with more values than
    indices overruns them (a failure); with fewer, the values are packed at
    the front and the rest of the buffer stays zero.  The indices are
    always the row indices followed by the shifted column indices, all of
    them values of an [int], and a connection that is delivered always has
    as many values as indices. *)
Theorem flat_connection_outcome (N : nat) (conn : SuperConn) :
  int_range (Z.of_nat N) ->
  Forall int_range (tochange_row conn) ->
  Forall (fun i => int_range i /\ int_range (i + Z.of_nat N))
         (tochange_col conn) ->
  let size := (length (tochange_row conn) + length (tochange_col conn))%nat in
  let used := (length (newconf_row conn) + length (newconf_col conn))%nat in
  match flat_connection N conn with
  | Ok c =>
      (used <= size)%nat
      /\ mel c = sup_mel conn
      /\ tochange c
         = tochange_row conn
           ++ map (fun i => (i + Z.of_nat N)%Z) (tochange_col conn)
      /\ Forall int_range (tochange c)
      /\ newconf c
         = newconf_row conn ++ newconf_col conn ++ repeat (Rlit 0) (size - used)
      /\ length (newconf c) = length (tochange c)
  | Fail e => e = OutOfRange /\ (size < used)%nat
  end.
Proof.
  intros _ Hrow Hcol. cbv zeta. rewrite flat_connection_cases. cbv zeta.
  destruct (Nat.leb_spec (length (newconf_row conn) + length (newconf_col conn))
              (length (tochange_row conn) + length (tochange_col conn)))
    as [Hle|Hgt].
  - cbn [mel tochange newconf].
    split; [assumption|]. split; [reflexivity|]. split; [reflexivity|].
    split; [|split; [reflexivity|]].
    + apply Forall_app. split; [assumption|].
      apply Forall_map. eapply Forall_impl; [|exact Hcol].
      intros i [_ Hi]. exact Hi.
    + rewrite !length_app, length_map, repeat_length. lia.
  - split; [reflexivity | assumption].
Qed.

(** X14. Every entry that [FindConn] returns is well formed, whatever the local
    operators produced: the three outputs have one length, each list of
    indices has the length of its list of values, and the entries are the
    connections that [ForEachConn] delivers. *)
Theorem FindConn_entries_well_formed (self : Lindbladian) (v : list R)
  (out o : Outputs) :
  FindConn self v out = Ok o ->
  length (out_mel o) = length (out_connectors o)
  /\ length (out_connectors o) = length (out_newconfs o)
  /\ Forall2 (fun idx vals => length idx = length vals)
             (out_connectors o) (out_newconfs o)
  /\ ForEachConn self v record_cb [] = Ok (zip_outputs o)
  /\ Forall well_formed (zip_outputs o).
Proof.
  rewrite FindConn_fold, ForEachConn_record.
  destruct (head (SizePhysical self) v) as [vrow|e]; simpl; [|discriminate].
  destruct (tail (SizePhysical self) v) as [vcol|e]; simpl; [|discriminate].
  destruct (map_outcome (flat_connection (SizePhysical self))
                        (superop_conns self vrow vcol)) as [cs|e] eqn:E;
    simpl; [|discriminate].
  intro Ho. injection Ho as <-.
  assert (Hwf : Forall well_formed cs).
  { eapply map_outcome_Forall; [|exact E].
    intros a b _ Hab. now apply flat_connection_Ok_well_formed in Hab. }
  rewrite zip_unzip_conns. unfold unzip_conns; simpl.
  rewrite !length_map. repeat split; try assumption.
  clear E. induction Hwf as [|c cs Hc _ IH]; simpl; constructor; assumption.
Qed.

Lemma NoDup_map_injective (A B : Type) (f : A -> B) (l : list A) :
  (forall x y, f x = f y -> x = y) -> NoDup l -> NoDup (map f l).
Proof.
  intros Hf Hl. induction Hl as [|x l Hx _ IH]; simpl; constructor.
  - intro Hin. apply in_map_iff in Hin. destruct Hin as (y & Hy & Hin).
    apply Hf in Hy. now subst.
  - exact IH.
Qed.

(** X15. With unique site indices on each side, the indices of a delivered
    connection are unique sites of the doubled configuration: the shift by
    [N] keeps the two sides apart. *)
Theorem flat_indices_unique (N : nat) (conn : SuperConn) (c : Conn) :
  flat_connection N conn = Ok c ->
  NoDup (tochange_row conn) ->
  NoDup (tochange_col conn) ->
  Forall (site_in_range N) (tochange_row conn) ->
  Forall (site_in_range N) (tochange_col conn) ->
  NoDup (tochange c) /\ Forall (site_in_range (2 * N)) (tochange c).
Proof.
  rewrite flat_connection_cases. cbv zeta.
  destruct (_ <=? _)%nat; [|discriminate].
  intro E. injection E as <-. simpl.
  intros Hrow Hcol Hrr Hcr. rewrite Forall_forall in Hrr, Hcr.
  split.
  - apply NoDup_app.
    + assumption.
    + apply NoDup_map_injective; [|assumption]. intros x y Hxy. lia.
    + intros i Hi Hi'. apply in_map_iff in Hi'. destruct Hi' as (j & <- & Hj).
      apply Hrr in Hi. apply Hcr in Hj. unfold site_in_range in *. lia.
  - apply Forall_app. split; apply Forall_forall.
    + intros i Hi. apply Hrr in Hi. unfold site_in_range in *. lia.
    + intros i Hi. apply in_map_iff in Hi. destruct Hi as (j & <- & Hj).
      apply Hcr in Hj. unfold site_in_range in *. lia.
Qed.

(** X16. On a doubled configuration made of a row half and a column half of
    [N] entries each, both variants enumerate the superoperator on exactly
    these halves. *)
Theorem ForEachConn_on_halves (S : Type) (self : Lindbladian) (vrow vcol : list R)
  (callback : Callback Conn S) (s : S) (out : Outputs) :
  length vrow = SizePhysical self ->
  length vcol = SizePhysical self ->
  ForEachConn self (vrow ++ vcol) callback s
  = for_each (fun conn s' =>
                c <- flat_connection (SizePhysical self) conn ;; callback c s')
             (superop_conns self vrow vcol) s
  /\ FindConn self (vrow ++ vcol) out
     = outcome_map unzip_conns
         (map_outcome (flat_connection (SizePhysical self))
                      (superop_conns self vrow vcol)).
Proof.
  intros Hrow Hcol.
  rewrite ForEachConn_fold, FindConn_fold.
  rewrite head_in_range, tail_in_range by (rewrite length_app; lia).
  rewrite length_app.
  replace (length vrow + length vcol - SizePhysical self)%nat
    with (length vrow) by lia.
  rewrite <- Hrow.
  rewrite firstn_app, firstn_all, Nat.sub_diag, firstn_O, app_nil_r.
  rewrite skipn_app, skipn_all, Nat.sub_diag. simpl.
  split; reflexivity.
Qed.

(** X17. The jump operators are kept in the order of insertion; adding jump
    operators never changes the Hamiltonian nor the physical size, and
    adding in two batches is adding the concatenation. *)
Theorem jump_operators_history (H : Op) (ops more : list Op) :
  let self := AddJumpOperators ops (new_LocalLindbladian H) in
  GetJumpOperators self = ops
  /\ H_ self = H
  /\ SizePhysical self = hilbert_size H
  /\ AddJumpOperators more self
     = AddJumpOperators (ops ++ more) (new_LocalLindbladian H)
  /\ GetJumpOperators (AddJumpOperators more self) = ops ++ more.
Proof.
  cbv zeta. unfold GetJumpOperators.
  destruct (AddJumpOperators_members ops (new_LocalLindbladian H))
    as (E1 & E2 & E3).
  destruct (AddJumpOperators_members more
              (AddJumpOperators ops (new_LocalLindbladian H)))
    as (_ & E4 & _).
  repeat split.
  - exact E2.
  - exact E1.
  - exact E3.
  - unfold AddJumpOperators. now rewrite fold_left_app.
  - rewrite E4, E2. reflexivity.
Qed.

(** X18. Without jump operators no delivered connection changes both
    halves of the doubled configuration: with a Hamiltonian pair acting on
    [N] sites, each connection changes row sites only (indices below [N])
    or column sites only (indices from [N] on). *)
Theorem closed_system_one_sided (self : Lindbladian) (v : list R)
  (delivered : list Conn) :
  jump_ops_ self = [] ->
  conns_in_range (SizePhysical self) (Hnh_dag_ self) ->
  conns_in_range (SizePhysical self) (Hnh_ self) ->
  ForEachConn self v record_cb [] = Ok delivered ->
  Forall (fun c =>
            Forall (fun i => (0 <= i < Z.of_nat (SizePhysical self))%Z) (tochange c)
            \/ Forall (fun i => (Z.of_nat (SizePhysical self) <= i
                                 < 2 * Z.of_nat (SizePhysical self))%Z)
                      (tochange c))
         delivered.
Proof.
  intros Hempty Hdag Hnh Hrun.
  assert (Hlen : (SizePhysical self <= length v)%nat).
  { destruct (Nat.le_gt_cases (SizePhysical self) (length v)) as [H|H];
      [exact H|].
    rewrite ForEachConn_record in Hrun. unfold head in Hrun.
    rewrite (proj2 (Nat.leb_gt _ _) H) in Hrun. discriminate. }
  assert (Hops : Forall (conns_in_range (SizePhysical self))
                        (Hnh_dag_ self :: Hnh_ self :: jump_ops_ self))
    by (rewrite Hempty; repeat constructor; assumption).
  rewrite (ForEachConn_completes self v Hlen Hops) in Hrun.
  injection Hrun as <-.
  unfold superop_conns. rewrite Hempty. cbn [flat_map].
  rewrite app_nil_r, map_app.
  apply Forall_app. split; apply Forall_map.
  - unfold unitary_row_conns. apply Forall_map.
    eapply Forall_impl; [|apply Hdag]. intros c [_ Hin]. left.
    unfold flat_conn. cbn [tochange tochange_row tochange_col map].
    now rewrite app_nil_r.
  - unfold unitary_col_conns. apply Forall_map.
    eapply Forall_impl; [|apply Hnh]. intros c [_ Hin]. right.
    unfold flat_conn. cbn [tochange tochange_row tochange_col app].
    apply Forall_map. eapply Forall_impl; [|exact Hin].
    intros i Hi. unfold site_in_range in Hi. lia.
Qed.

End AdapterExtras.

(* ===================================================================== *)
(** ** Runs of the fully connected layer and of the adapter *)

Lemma small_layer_sized : layer_sized small_layer.
Proof. repeat split. Qed.

(** The forward pass of the small layer on the input [(1, 1)]. *)
Example small_layer_forward :
  Forward small_layer [1; 1]%Z = Ok [13; 27]%Z.
Proof. reflexivity. Qed.

(** When every site changes, the new values are read in the order of the
    input, not in the order of the listed sites: with the sites listed as
    [1, 0] the result is the output on [(5, 7)], not on the changed input
    [(7, 5)]. *)
Example UpdateLookup_full_change_is_positional :
  UpdateLookup small_layer [1; 1]%Z [1; 0]%Z [5; 7]%Z [13; 27]%Z []
  = Ok ([0; 0]%Z, [29; 63]%Z)
  /\ Forward small_layer (changed_input [1; 0]%Z [5; 7]%Z [1; 1]%Z)
     = Ok [27; 61]%Z.
Proof. split; reflexivity. Qed.

(** The cells of the runs below take 16 bytes, the size of
    [std::complex<double>]. *)
Lemma sixteen_byte_cells : 16%nat = scalar_bytesize_.
Proof. reflexivity. Qed.

Lemma small_int_range (n : nat) : (n <= 100)%nat -> int_range (Z.of_nat n).
Proof. unfold int_range, INT_MIN, INT_MAX. lia. Qed.

(** With cells of 8 bytes (a layer of [double]) the same byte counts
    cover twice as many cells: [GetParameters] reads 32 bytes from the
    bias vector of two cells, and [SetParameters] writes as many to it. *)
Example byte_counts_overrun_smaller_cells :
  GetParameters 8 small_layer [0; 0; 0; 0; 0; 0; 0; 0; 0; 0; 0; 0; 0]%Z 1
  = Fail OutOfRange
  /\ SetParameters 8 small_layer [0; 0; 0; 0; 0; 0; 0; 0; 0; 0; 0; 0; 0]%Z 1
     = Fail OutOfRange.
Proof. split; reflexivity. Qed.

(** X2 on the small layer and a vector of eight cells, from cell 1. *)
Lemma GetParameters_window_witness :
  16%nat = scalar_bytesize_
  /\ layer_sized small_layer
  /\ int_range (Z.of_nat (1 + Npar small_layer))
  /\ match GetParameters 16 small_layer [0; 0; 0; 0; 0; 0; 0; 0]%Z 1 with
     | Ok pars' =>
         (1 + Npar small_layer <= 8)%nat
         /\ length pars' = 8%nat
         /\ firstn 1 pars' = [0%Z]
         /\ slice 1 (Npar small_layer) pars' = [10; 20; 1; 2; 3; 4]%Z
         /\ skipn (1 + Npar small_layer) pars' = [0%Z]
     | Fail e => e = OutOfRange /\ (8 < 1 + Npar small_layer)%nat
     end.
Proof.
  assert (Hint : int_range (Z.of_nat (1 + Npar small_layer)))
    by (apply small_int_range; vm_compute; lia).
  split; [exact sixteen_byte_cells|]. split; [exact small_layer_sized|].
  split; [exact Hint|].
  exact (GetParameters_window [0; 0; 0; 0; 0; 0; 0; 0]%Z 1
           sixteen_byte_cells small_layer_sized Hint).
Defined.

(** X3 on the small layer: the window [1 .. 6] of a vector of eight cells
    becomes the bias [(1, 2)] and the weights [(3, 4, 5, 6)]. *)
Lemma SetParameters_loads_window_witness :
  16%nat = scalar_bytesize_
  /\ layer_sized small_layer
  /\ int_range (Z.of_nat (1 + Npar small_layer))
  /\ match SetParameters 16 small_layer [7; 1; 2; 3; 4; 5; 6; 9]%Z 1 with
     | Ok self' =>
         (1 + Npar small_layer <= 8)%nat
         /\ parameters self' = [1; 2; 3; 4; 5; 6]%Z
         /\ (bias_ self' = [1; 2]%Z /\ weight_ self' = [3; 4; 5; 6]%Z)
         /\ layer_sized self'
         /\ usebias_ self' = true
         /\ in_size_ self' = 2%nat
         /\ out_size_ self' = 2%nat
         /\ npar_ self' = 6%nat
     | Fail e => e = OutOfRange /\ (8 < 1 + Npar small_layer)%nat
     end.
Proof.
  assert (Hint : int_range (Z.of_nat (1 + Npar small_layer)))
    by (apply small_int_range; vm_compute; lia).
  split; [exact sixteen_byte_cells|]. split; [exact small_layer_sized|].
  split; [exact Hint|].
  exact (SetParameters_loads_window [7; 1; 2; 3; 4; 5; 6; 9]%Z 1
           sixteen_byte_cells small_layer_sized Hint).
Defined.

(** X4 on the small layer. *)
Lemma SetParameters_GetParameters_witness :
  16%nat = scalar_bytesize_
  /\ layer_sized small_layer
  /\ int_range (Z.of_nat (1 + Npar small_layer))
  /\ int_range (Z.of_nat (0 + Npar small_layer))
  /\ SetParameters 16 small_layer [7; 1; 2; 3; 4; 5; 6; 9]%Z 1
     = Ok (mkLayer true 2 2 6 [3; 4; 5; 6]%Z [1; 2]%Z)
  /\ (0 + Npar small_layer <= length [0; 0; 0; 0; 0; 0; 0]%Z)%nat
  /\ GetParameters 16 (mkLayer true 2 2 6 [3; 4; 5; 6]%Z [1; 2]%Z)
                   [0; 0; 0; 0; 0; 0; 0]%Z 0
     = Ok [1; 2; 3; 4; 5; 6; 0]%Z
  /\ GetParameters 16 (mkLayer true 2 2 6 [3; 4; 5; 6]%Z [1; 2]%Z)
                   [7; 1; 2; 3; 4; 5; 6; 9]%Z 1
     = Ok [7; 1; 2; 3; 4; 5; 6; 9]%Z.
Proof.
  assert (Hint : int_range (Z.of_nat (1 + Npar small_layer)))
    by (apply small_int_range; vm_compute; lia).
  assert (Hint0 : int_range (Z.of_nat (0 + Npar small_layer)))
    by (apply small_int_range; vm_compute; lia).
  assert (Hset : SetParameters 16 small_layer [7; 1; 2; 3; 4; 5; 6; 9]%Z 1
                 = Ok (mkLayer true 2 2 6 [3; 4; 5; 6]%Z [1; 2]%Z))
    by reflexivity.
  assert (Hk : (0 + Npar small_layer <= length [0; 0; 0; 0; 0; 0; 0]%Z)%nat)
    by (vm_compute; lia).
  split; [exact sixteen_byte_cells|]. split; [exact small_layer_sized|].
  split; [exact Hint|]. split; [exact Hint0|].
  split; [exact Hset|]. split; [exact Hk|].
  exact (@SetParameters_GetParameters Z 16 small_layer _
           [7; 1; 2; 3; 4; 5; 6; 9]%Z [0; 0; 0; 0; 0; 0; 0]%Z 1 0
           sixteen_byte_cells small_layer_sized Hint Hint0 Hset Hk).
Defined.

(** X5 on the small layer. *)
Lemma GetParameters_SetParameters_witness :
  16%nat = scalar_bytesize_
  /\ layer_sized small_layer
  /\ int_range (Z.of_nat (1 + Npar small_layer))
  /\ GetParameters 16 small_layer [0; 0; 0; 0; 0; 0; 0; 0]%Z 1
     = Ok [0; 10; 20; 1; 2; 3; 4; 0]%Z
  /\ SetParameters 16 small_layer [0; 10; 20; 1; 2; 3; 4; 0]%Z 1
     = Ok small_layer
  /\ length [0; 10; 20; 1; 2; 3; 4; 0]%Z = length [0; 0; 0; 0; 0; 0; 0; 0]%Z.
Proof.
  assert (Hint : int_range (Z.of_nat (1 + Npar small_layer)))
    by (apply small_int_range; vm_compute; lia).
  assert (Hget : GetParameters 16 small_layer [0; 0; 0; 0; 0; 0; 0; 0]%Z 1
                 = Ok [0; 10; 20; 1; 2; 3; 4; 0]%Z) by reflexivity.
  split; [exact sixteen_byte_cells|]. split; [exact small_layer_sized|].
  split; [exact Hint|]. split; [exact Hget|].
  exact (@GetParameters_SetParameters Z 16 small_layer
           [0; 0; 0; 0; 0; 0; 0; 0]%Z [0; 10; 20; 1; 2; 3; 4; 0]%Z 1
           sixteen_byte_cells small_layer_sized Hint Hget).
Defined.

(** X6 on the small layer, the samples being [0, 1, 2, ...]. *)
Lemma InitRandomPars_loads_all_witness :
  16%nat = scalar_bytesize_
  /\ layer_sized small_layer
  /\ int_range (Z.of_nat (Npar small_layer))
  /\ exists self',
       InitRandomPars 16 Z.of_nat small_layer = Ok self'
       /\ parameters self' = map Z.of_nat (seq 0 (Npar small_layer))
       /\ layer_sized self'
       /\ (if usebias_ small_layer then True
           else bias_ self' = bias_ small_layer).
Proof.
  assert (Hint : int_range (Z.of_nat (Npar small_layer)))
    by (apply small_int_range; vm_compute; lia).
  split; [exact sixteen_byte_cells|]. split; [exact small_layer_sized|].
  split; [exact Hint|].
  exact (InitRandomPars_loads_all Z.of_nat
           sixteen_byte_cells small_layer_sized Hint).
Defined.

(** X1 on a layer without bias of three inputs and two outputs whose
    fresh storage holds sevens: six parameters, the samples
    [0, 1, 2, ...] after [InitRandomPars], and a zero bias. *)
Lemma fresh_layer_parameters_witness :
  16%nat = scalar_bytesize_
  /\ int_range (Z.of_nat (3 * 2 + 0))
  /\ Npar (layer_Init (fun _ => 7%Z) (fun _ => 7%Z) false 3 2) = 6%nat
  /\ exists self',
       InitRandomPars 16 Z.of_nat
         (layer_Init (fun _ => 7%Z) (fun _ => 7%Z) false 3 2) = Ok self'
       /\ GetParameters 16 self' (repeat 0%Z 6) 0 = Ok [0; 1; 2; 3; 4; 5]%Z
       /\ bias_ self' = [0; 0]%Z.
Proof.
  assert (Hint : int_range (Z.of_nat (3 * 2 + 0)))
    by (apply small_int_range; vm_compute; lia).
  split; [exact sixteen_byte_cells|]. split; [exact Hint|].
  destruct (@fresh_layer_parameters Z integer_arith 16
              (fun _ => 7%Z) (fun _ => 7%Z) Z.of_nat false 3 2
              sixteen_byte_cells Hint)
    as (_ & _ & _ & Hn & _ & _ & self' & Hinit & Hget & _ & Hb).
  split; [exact Hn|].
  exists self'. split; [exact Hinit|]. split; [exact Hget | exact Hb].
Defined.


(** X7 on the small layer: site 1 of the input [(1, 1)] becomes 5. *)
Lemma UpdateOutput_matches_Forward_witness :
  layer_sized small_layer
  /\ NoDup [1%Z]
  /\ Forall (fun sf => (0 <= sf < Z.of_nat (in_size_ small_layer))%Z) [1%Z]
  /\ (length [1%Z] <= length [5%Z])%nat
  /\ Forward small_layer [1; 1]%Z = Ok [13; 27]%Z
  /\ exists new_output,
       UpdateOutput small_layer [1; 1]%Z [1%Z] [5%Z] [13; 27]%Z = Ok new_output
       /\ Forward small_layer (changed_input [1%Z] [5%Z] [1; 1]%Z) = Ok new_output.
Proof.
  assert (Hnd : NoDup [1%Z]) by (repeat constructor; simpl; tauto).
  assert (Hrange : Forall (fun sf => (0 <= sf < Z.of_nat (in_size_ small_layer))%Z)
                          [1%Z])
    by (repeat constructor; simpl; lia).
  assert (Hlen : (length [1%Z] <= length [5%Z])%nat) by (simpl; lia).
  assert (Hfw : Forward small_layer [1; 1]%Z = Ok [13; 27]%Z) by reflexivity.
  split; [exact small_layer_sized|]. split; [exact Hnd|].
  split; [exact Hrange|]. split; [exact Hlen|]. split; [exact Hfw|].
  exact (@UpdateOutput_matches_Forward Z integer_arith 1%Z Z.opp Zth small_layer
           [1; 1]%Z [5%Z] [13; 27]%Z [1%Z]
           small_layer_sized Hnd Hrange Hlen Hfw).
Defined.

(** X8 on the small layer, for the same change. *)
Lemma UpdateLookup_matches_Forward_witness :
  layer_sized small_layer
  /\ NoDup [1%Z]
  /\ Forall (fun sf => (0 <= sf < Z.of_nat (in_size_ small_layer))%Z) [1%Z]
  /\ length [5%Z] = length [1%Z]
  /\ [1%Z] <> []
  /\ (length [1%Z] = in_size_ small_layer ->
      [1%Z] = map Z.of_nat (seq 0 (in_size_ small_layer)))
  /\ Forward small_layer [1; 1]%Z = Ok [13; 27]%Z
  /\ exists new_output,
       UpdateLookup small_layer [1; 1]%Z [1%Z] [5%Z] [13; 27]%Z []
       = Ok (vector_resize (out_size_ small_layer) [], new_output)
       /\ length (vector_resize (out_size_ small_layer) [])
          = out_size_ small_layer
       /\ Forward small_layer (changed_input [1%Z] [5%Z] [1; 1]%Z) = Ok new_output.
Proof.
  assert (Hnd : NoDup [1%Z]) by (repeat constructor; simpl; tauto).
  assert (Hrange : Forall (fun sf => (0 <= sf < Z.of_nat (in_size_ small_layer))%Z)
                          [1%Z])
    by (repeat constructor; simpl; lia).
  assert (Hlen : length [5%Z] = length [1%Z]) by reflexivity.
  assert (Hne : [1%Z] <> []) by discriminate.
  assert (Hfull : length [1%Z] = in_size_ small_layer ->
                  [1%Z] = map Z.of_nat (seq 0 (in_size_ small_layer)))
    by (simpl; discriminate).
  assert (Hfw : Forward small_layer [1; 1]%Z = Ok [13; 27]%Z) by reflexivity.
  split; [exact small_layer_sized|]. split; [exact Hnd|].
  split; [exact Hrange|]. split; [exact Hlen|]. split; [exact Hne|].
  split; [exact Hfull|]. split; [exact Hfw|].
  exact (@UpdateLookup_matches_Forward Z integer_arith 1%Z Z.opp Zth small_layer
           [1; 1]%Z [5%Z] [13; 27]%Z [1%Z] []
           small_layer_sized Hnd Hrange Hlen Hne Hfull Hfw).
Defined.


(** X10 on the small layer. *)
Lemma Backprop_gradient_layout_witness :
  16%nat = scalar_bytesize_
  /\ layer_sized small_layer
  /\ int_range (Z.of_nat (1 + Npar small_layer))
  /\ length [1; 2]%Z = Ninput small_layer
  /\ length [3; 4]%Z = Noutput small_layer
  /\ (1 + Npar small_layer <= length [0; 0; 0; 0; 0; 0; 0; 0]%Z)%nat
  /\ (1 + Npar small_layer <= length [9; 9; 9; 9; 9; 9; 9; 9]%Z)%nat
  /\ exists din der' pars',
       Backprop small_layer [1; 2]%Z [3; 4]%Z [0; 0; 0; 0; 0; 0; 0; 0]%Z 1
       = Ok (din, der')
       /\ GetParameters 16 small_layer [9; 9; 9; 9; 9; 9; 9; 9]%Z 1 = Ok pars'
       /\ (forall i j, (i < Ninput small_layer)%nat ->
                       (j < Noutput small_layer)%nat ->
             let p := (1 + ((if usebias_ small_layer then Noutput small_layer
                             else 0) + (i + j * Ninput small_layer)))%nat in
             nth p pars' T0 = weight_coeff small_layer i j
             /\ nth p der' T0 = Tmul (nth i [1; 2]%Z T0) (nth j [3; 4]%Z T0))
       /\ (forall j, usebias_ small_layer = true ->
                     (j < Noutput small_layer)%nat ->
             nth (1 + j) pars' T0 = nth j (bias_ small_layer) T0
             /\ nth (1 + j) der' T0 = nth j [3; 4]%Z T0).
Proof.
  assert (Hp : length [1; 2]%Z = Ninput small_layer) by reflexivity.
  assert (Hd : length [3; 4]%Z = Noutput small_layer) by reflexivity.
  assert (Hder : (1 + Npar small_layer
                  <= length [0; 0; 0; 0; 0; 0; 0; 0]%Z)%nat)
    by (vm_compute; lia).
  assert (Hpars : (1 + Npar small_layer
                   <= length [9; 9; 9; 9; 9; 9; 9; 9]%Z)%nat)
    by (vm_compute; lia).
  assert (Hint : int_range (Z.of_nat (1 + Npar small_layer)))
    by (apply small_int_range; vm_compute; lia).
  split; [exact sixteen_byte_cells|]. split; [exact small_layer_sized|].
  split; [exact Hint|]. split; [exact Hp|]. split; [exact Hd|].
  split; [exact Hder|]. split; [exact Hpars|].
  exact (@Backprop_gradient_layout Z integer_arith 16 small_layer
           [1; 2]%Z [3; 4]%Z
           [0; 0; 0; 0; 0; 0; 0; 0]%Z [9; 9; 9; 9; 9; 9; 9; 9]%Z 1
           sixteen_byte_cells small_layer_sized Hint Hp Hd Hder Hpars).
Defined.

(** X11 on the small layer: [din = (15, 22)] paired with the input
    [(1, 1)] is [37], as is [dout = (3, 4)] paired with [(3, 7)]. *)
Lemma Backprop_input_gradient_witness :
  layer_sized small_layer
  /\ Backprop small_layer [1; 2]%Z [3; 4]%Z [0; 0; 0; 0; 0; 0; 0; 0]%Z 1
     = Ok ([15; 22]%Z, [0; 3; 4; 3; 6; 4; 8; 0]%Z)
  /\ length [1; 1]%Z = Ninput small_layer
  /\ Forward small_layer [1; 1]%Z = Ok (vec_add (bias_ small_layer) [3; 7]%Z)
  /\ dot [15; 22]%Z [1; 1]%Z = dot [3; 4]%Z [3; 7]%Z.
Proof.
  assert (Hbp : Backprop small_layer [1; 2]%Z [3; 4]%Z
                         [0; 0; 0; 0; 0; 0; 0; 0]%Z 1
                = Ok ([15; 22]%Z, [0; 3; 4; 3; 6; 4; 8; 0]%Z)) by reflexivity.
  assert (Hx : length [1; 1]%Z = Ninput small_layer) by reflexivity.
  split; [exact small_layer_sized|]. split; [exact Hbp|]. split; [exact Hx|].
  exact (@Backprop_input_gradient Z integer_arith 1%Z Z.opp Zth small_layer
           [1; 2]%Z [3; 4]%Z [0; 0; 0; 0; 0; 0; 0; 0]%Z
           [15; 22]%Z [0; 3; 4; 3; 6; 4; 8; 0]%Z [1; 1]%Z 1
           small_layer_sized Hbp Hx).
Defined.

(** X12 on the small layer, taken as its own [other]: the parameters
    paired with the gradient and [dout] paired with the output are both
    [169]. *)
Lemma Backprop_parameter_gradient_witness :
  layer_sized small_layer
  /\ (usebias_ small_layer = false ->
      bias_ small_layer = repeat T0 (out_size_ small_layer))
  /\ Backprop small_layer [1; 2]%Z [3; 4]%Z [0; 0; 0; 0; 0; 0; 0; 0]%Z 1
     = Ok ([15; 22]%Z, [0; 3; 4; 3; 6; 4; 8; 0]%Z)
  /\ exists output,
       Forward small_layer [1; 2]%Z = Ok output
       /\ dot (parameters small_layer)
              (slice 1 (Npar small_layer) [0; 3; 4; 3; 6; 4; 8; 0]%Z)
          = dot [3; 4]%Z output.
Proof.
  assert (Hzero : usebias_ small_layer = false ->
                  bias_ small_layer = repeat T0 (out_size_ small_layer))
    by (simpl; discriminate).
  assert (Hbp : Backprop small_layer [1; 2]%Z [3; 4]%Z
                         [0; 0; 0; 0; 0; 0; 0; 0]%Z 1
                = Ok ([15; 22]%Z, [0; 3; 4; 3; 6; 4; 8; 0]%Z)) by reflexivity.
  split; [exact small_layer_sized|]. split; [exact Hzero|]. split; [exact Hbp|].
  exact (@Backprop_parameter_gradient Z integer_arith 1%Z Z.opp Zth
           small_layer small_layer
           [1; 2]%Z [3; 4]%Z [0; 0; 0; 0; 0; 0; 0; 0]%Z
           [15; 22]%Z [0; 3; 4; 3; 6; 4; 8; 0]%Z 1
           small_layer_sized small_layer_sized eq_refl eq_refl eq_refl
           Hzero Hbp).
Defined.

(** X13 on the cross term of the flip channel of a one-site system: row
    site [0] and column site [0], delivered as the sites [0] and [1]. *)
Lemma flat_connection_outcome_witness :
  int_range (Z.of_nat 1)
  /\ Forall int_range [0%Z]
  /\ Forall (fun i => int_range i /\ int_range (i + Z.of_nat 1)) [0%Z]
  /\ match flat_connection 1 (mkSuperConn OneSite.Gone [0%Z] [1%Q] [0%Z] [1%Q]) with
     | Ok c =>
         (2 <= 2)%nat
         /\ mel c = OneSite.Gone
         /\ tochange c = [0; 1]%Z
         /\ Forall int_range (tochange c)
         /\ newconf c = [1; 1]%Q
         /\ length (newconf c) = length (tochange c)
     | Fail e => e = OutOfRange /\ (2 < 2)%nat
     end.
Proof.
  assert (HN : int_range (Z.of_nat 1))
    by (unfold int_range, INT_MIN, INT_MAX; simpl; lia).
  assert (Hrow : Forall int_range [0%Z])
    by (repeat constructor; unfold int_range, INT_MIN, INT_MAX; lia).
  assert (Hcol : Forall (fun i => int_range i /\ int_range (i + Z.of_nat 1))
                        [0%Z])
    by (repeat constructor; unfold int_range, INT_MIN, INT_MAX; simpl; lia).
  split; [exact HN|]. split; [exact Hrow|]. split; [exact Hcol|].
  exact (@flat_connection_outcome Q OneSite.Gauss OneSite.scalars 1
           (mkSuperConn OneSite.Gone [0%Z] [1%Q] [0%Z] [1%Q]) HN Hrow Hcol).
Defined.

(** X14 on the doubled configuration [[0; 0]] of the system with one flip
    channel. *)
Lemma FindConn_entries_well_formed_witness :
  FindConn OneSite.damped [0; 0]%Q (mkOutputs [] [] [])
  = Ok (mkOutputs [ OneSite.mkGauss (-1 # 2) 0; OneSite.mkGauss (-1 # 2) 0;
                    OneSite.mkGauss 1 0 ]
                  [ []; []; [0; 1]%Z ]
                  [ []; []; [1; 1]%Q ])
  /\ Forall2 (fun idx vals => length idx = length vals)
             [ []; []; [0; 1]%Z ] [ []; []; [1; 1]%Q ]
  /\ ForEachConn OneSite.damped [0; 0]%Q record_cb []
     = Ok [ mkConn (OneSite.mkGauss (-1 # 2) 0) [] [];
            mkConn (OneSite.mkGauss (-1 # 2) 0) [] [];
            mkConn (OneSite.mkGauss 1 0) [0; 1]%Z [1; 1]%Q ].
Proof.
  assert (Hfind : FindConn OneSite.damped [0; 0]%Q (mkOutputs [] [] [])
                  = Ok (mkOutputs
                          [ OneSite.mkGauss (-1 # 2) 0; OneSite.mkGauss (-1 # 2) 0;
                            OneSite.mkGauss 1 0 ]
                          [ []; []; [0; 1]%Z ]
                          [ []; []; [1; 1]%Q ])) by reflexivity.
  split; [exact Hfind|].
  destruct (FindConn_entries_well_formed OneSite.damped [0; 0]%Q
              (mkOutputs [] [] []) Hfind) as (_ & _ & Hall & Hrec & _).
  split; [exact Hall | exact Hrec].
Defined.

(** X15 on a cross term of a one-site system: row site [0] and column
    site [0] are delivered as the sites [0] and [1]. *)
Lemma flat_indices_unique_witness :
  flat_connection 1 (mkSuperConn OneSite.Gone [0%Z] [1%Q] [0%Z] [1%Q])
  = Ok (mkConn OneSite.Gone [0; 1]%Z [1; 1]%Q)
  /\ NoDup [0%Z]
  /\ Forall (site_in_range 1) [0%Z]
  /\ NoDup [0; 1]%Z
  /\ Forall (site_in_range (2 * 1)) [0; 1]%Z.
Proof.
  assert (Hflat : flat_connection 1
                    (mkSuperConn OneSite.Gone [0%Z] [1%Q] [0%Z] [1%Q])
                  = Ok (mkConn OneSite.Gone [0; 1]%Z [1; 1]%Q)) by reflexivity.
  assert (Hnd : NoDup [0%Z]) by (repeat constructor; simpl; tauto).
  assert (Hin : Forall (site_in_range 1) [0%Z])
    by (repeat constructor; unfold site_in_range; simpl; lia).
  split; [exact Hflat|]. split; [exact Hnd|]. split; [exact Hin|].
  exact (flat_indices_unique
           (mkSuperConn OneSite.Gone [0%Z] [1%Q] [0%Z] [1%Q])
           Hflat Hnd Hnd Hin Hin).
Defined.

(** X16 on the halves [[0]] and [[0]] of the system with one flip
    channel. *)
Lemma ForEachConn_on_halves_witness :
  length [0%Q] = SizePhysical OneSite.damped
  /\ ForEachConn OneSite.damped ([0%Q] ++ [0%Q]) record_cb []
     = for_each (fun conn s' =>
                   c <- flat_connection (SizePhysical OneSite.damped) conn ;;
                   record_cb c s')
                (superop_conns OneSite.damped [0%Q] [0%Q]) []
  /\ FindConn OneSite.damped ([0%Q] ++ [0%Q]) (mkOutputs [] [] [])
     = outcome_map unzip_conns
         (map_outcome (flat_connection (SizePhysical OneSite.damped))
                      (superop_conns OneSite.damped [0%Q] [0%Q])).
Proof.
  assert (Hlen : length [0%Q] = SizePhysical OneSite.damped) by reflexivity.
  split; [exact Hlen|].
  exact (@ForEachConn_on_halves _ _ _ _ _ _ OneSite.damped [0%Q] [0%Q]
           record_cb [] (mkOutputs [] [] []) Hlen Hlen).
Defined.

(** X18 on the closed system with Hamiltonian [flip] and the doubled
    configuration [[0; 1]]: one connection flips the row site, the other
    the column site. *)
Lemma closed_system_one_sided_witness :
  jump_ops_ OneSite.closed_flip = []
  /\ ForEachConn OneSite.closed_flip [0; 1]%Q record_cb []
     = Ok [ mkConn (OneSite.mkGauss 0 1) [0%Z] [1%Q];
            mkConn (OneSite.mkGauss 0 (-1)) [1%Z] [0%Q] ]
  /\ Forall (fun c =>
       Forall (fun i => (0 <= i < Z.of_nat (SizePhysical OneSite.closed_flip))%Z)
              (tochange c)
       \/ Forall (fun i => (Z.of_nat (SizePhysical OneSite.closed_flip) <= i
                            < 2 * Z.of_nat (SizePhysical OneSite.closed_flip))%Z)
                 (tochange c))
       [ mkConn (OneSite.mkGauss 0 1) [0%Z] [1%Q];
         mkConn (OneSite.mkGauss 0 (-1)) [1%Z] [0%Q] ].
Proof.
  assert (He : jump_ops_ OneSite.closed_flip = []) by reflexivity.
  assert (Hrun : ForEachConn OneSite.closed_flip [0; 1]%Q record_cb []
                 = Ok [ mkConn (OneSite.mkGauss 0 1) [0%Z] [1%Q];
                        mkConn (OneSite.mkGauss 0 (-1)) [1%Z] [0%Q] ])
    by reflexivity.
  split; [exact He|]. split; [exact Hrun|].
  exact (closed_system_one_sided OneSite.closed_flip [0; 1]%Q He
           (Mconns_in_range _) (Mconns_in_range _) Hrun).
Defined.
